(** * Text-to-speech demo: playback manager, duration estimate, progress,
    export fallbacks and the stub endpoint

  A shallow embedding of the audio utilities ([TextToSpeechManager],
  [estimateDuration], [createTextFile], [createAudioBlobWithRecording]),
  of the [AudioPlayer] progress effect and of the [POST] handler of
  [app/api/text-to-speech/route.ts].

  Conventions of the embedding.
  - A JavaScript string is a [string]: each [ascii] is one code unit in the
    range 0..255, so [String.length] is the [length] property.
  - A JavaScript number is an exact rational ([Q]).  Word counts, slider
    values in tenths and millisecond delays are all far from the range
    where binary64 rounding or overflow would matter; rounding itself is
    not modelled.  [Q] has no [Infinity], [NaN] or negative zero: where
    the code divides by a rate of 0 and gets [Infinity], the statements
    about [estimateDuration] take a rate other than 0, and the placeholder
    file, whose allocation fails on [Infinity], tests the rate first.
  - Mutable objects become records threaded through the operations; the
    browser's speech engine, the media recorder and the timer queue are
    explicit components of the state. *)

From Stdlib Require Import List String Ascii Bool Arith ZArith QArith Qminmax
  Qround Qabs DecimalString Lia.
Import ListNotations.

#[local] Set Warnings "-abstract-large-number".

Local Open Scope string_scope.

(** ** Strings *)

Module JsString.

(** The code units below 256 matched by the regular expression class [\s]
    and stripped by [String.prototype.trim]: TAB, LF, VT, FF, CR, SP and
    NBSP. *)
Definition isWhitespace (c : ascii) : bool :=
  let n := nat_of_ascii c in
  (n =? 9)%nat || (n =? 10)%nat || (n =? 11)%nat || (n =? 12)%nat
  || (n =? 13)%nat || (n =? 32)%nat || (n =? 160)%nat.

(** [allWhitespace s]: every code unit of [s] is whitespace (so is the
    empty string). *)
Fixpoint allWhitespace (s : string) : bool :=
  match s with
  | EmptyString => true
  | String c rest => isWhitespace c && allWhitespace rest
  end.

(** [s.split(/\s+/)].  [tok] is the token being read; [inGap] tells that
    the previous code unit belonged to a separator, whose greedy match
    swallows every following whitespace unit.  A separator at the start or
    at the end of the text leaves an empty token there, and the empty text
    splits into one empty token. *)
Fixpoint split_go (tok : string) (inGap : bool) (s : string) : list string :=
  match s with
  | EmptyString => [tok]
  | String c rest =>
      if isWhitespace c then
        if inGap then split_go tok true rest
        else tok :: split_go EmptyString true rest
      else split_go (tok ++ String c EmptyString) false rest
  end.

Definition split_ws (s : string) : list string :=
  split_go EmptyString false s.

Fixpoint trimStart (s : string) : string :=
  match s with
  | EmptyString => EmptyString
  | String c rest => if isWhitespace c then trimStart rest else s
  end.

Fixpoint trimEnd (s : string) : string :=
  match s with
  | EmptyString => EmptyString
  | String c rest =>
      let rest' := trimEnd rest in
      if isWhitespace c && (rest' =? EmptyString) then EmptyString
      else String c rest'
  end.

(** [s.trim()] *)
Definition trim (s : string) : string := trimEnd (trimStart s).

(** [s.startsWith(p)] and [s.includes(p)] *)
Fixpoint startsWith (p s : string) : bool :=
  match p, s with
  | EmptyString, _ => true
  | String _ _, EmptyString => false
  | String a p', String b s' => Ascii.eqb a b && startsWith p' s'
  end.

Fixpoint includes (s p : string) : bool :=
  startsWith p s ||
  match s with
  | EmptyString => false
  | String _ rest => includes rest p
  end.

(** [c.repeat(n)] for a one-unit string. *)
Fixpoint repeat (c : ascii) (n : nat) : string :=
  match n with
  | O => EmptyString
  | S k => String c (repeat c k)
  end.

End JsString.

(** ** Duration estimate (audio-utils: [estimateDuration]) *)

Module Estimator.
Import JsString.

Local Open Scope Q_scope.

(** [text.split(/\s+/).length] *)
Definition wordCount (text : string) : nat := List.length (split_ws text).

(** [text.split(/\s+/).filter(word => word.length > 0).length], the word
    count shown next to the estimate by [AudioPlayer] and by
    [TextToSpeechApp]. *)
Definition displayedWordCount (text : string) : nat :=
  List.length
    (List.filter (fun word => (0 <? String.length word)%nat) (split_ws text)).

Definition wordsPerMinute (rate : Q) : Q := 155 * rate.

(** [(wordCount / wordsPerMinute) * 60], on exact rationals.  At rate 0
    the code divides by zero and returns [Infinity] (a word count is at
    least 1), a value [Q] does not have: [Qdiv] gives 0 there.  What is
    stated of the estimate is stated at a rate other than 0, and the code
    that goes wrong on [Infinity] ([createTextToSpeechInfoFile]) tests the
    rate before it uses the estimate. *)
Definition estimateDuration (text : string) (rate : Q) : Q :=
  (inject_Z (Z.of_nat (wordCount text)) / wordsPerMinute rate) * 60.

End Estimator.


(** ** Number formatting *)

Module JsNumber.

(** Decimal digits of an integer, as [String(n)] prints it. *)
Definition intToString (n : Z) : string :=
  DecimalString.NilZero.string_of_int (Z.to_int n).

Definition digitChar (d : Z) : ascii := ascii_of_nat (48 + Z.to_nat d).

(** The digits after the decimal point of [num / den], for
    [0 <= num < den], without trailing zeros; at most [fuel] of them. *)
Fixpoint fracDigits (fuel : nat) (num den : Z) : string :=
  match fuel with
  | O => EmptyString
  | S k =>
      if (num =? 0)%Z then EmptyString
      else String (digitChar ((num * 10) / den))
                  (fracDigits k ((num * 10) mod den) den)
  end.

(** The least [m' >= m], at most [fuel] steps on, for which [den] divides
    [num * 10 ^ (m' - m)], with the quotient: a number [num / den] whose
    decimal expansion is finite is an integer over a power of ten. *)
Fixpoint scaleToInteger (fuel : nat) (num den m : Z) : option (Z * Z) :=
  if (num mod den =? 0)%Z then Some ((num / den)%Z, m)
  else
    match fuel with
    | O => None
    | S k => scaleToInteger k (num * 10) den (m + 1)
    end.

(** The trailing zeros of a positive integer taken off and counted. *)
Fixpoint stripZeros (fuel : nat) (n z : Z) : Z * Z :=
  match fuel with
  | O => (n, z)
  | S k =>
      if (n mod 10 =? 0)%Z then stripZeros k (n / 10) (z + 1) else (n, z)
  end.

(** The digits [s] of a positive number without leading or trailing zero
    and the exponent [n] for which the number is [0.s * 10 ^ n], when the
    decimal expansion is finite. *)
Definition digitsAndPoint (a d : Z) : option (string * Z) :=
  match scaleToInteger 400 a d 0 with
  | None => None
  | Some (whole, m) =>
      let '(s, z) := stripZeros 400 whole 0 in
      let digits := intToString s in
      Some (digits, (Z.of_nat (String.length digits) + z - m)%Z)
  end.

(** The four layouts of [Number::toString] for the digits [s], [k] of
    them, and the exponent [n]: the digits and zeros; the digits with a
    point among them; [0.], zeros and the digits; or exponent notation. *)
Definition layout (digits : string) (n : Z) : string :=
  let k := Z.of_nat (String.length digits) in
  if ((k <=? n) && (n <=? 21))%Z then
    digits ++ JsString.repeat "0" (Z.to_nat (n - k))
  else if ((0 <? n) && (n <=? 21))%Z then
    substring 0 (Z.to_nat n) digits ++ "."
    ++ substring (Z.to_nat n) (Z.to_nat (k - n)) digits
  else if ((-6 <? n) && (n <=? 0))%Z then
    "0." ++ JsString.repeat "0" (Z.to_nat (- n)) ++ digits
  else
    let e := (n - 1)%Z in
    (if (k =? 1)%Z then digits
     else substring 0 1 digits ++ "."
          ++ substring 1 (Z.to_nat (k - 1)) digits)
    ++ "e" ++ (if (e <? 0)%Z then "-" else "+") ++ intToString (Z.abs e).

(** [String(x)], the conversion a template literal applies to a number:
    it prints the shortest decimal that reads back as [x].  A number of the
    program is identified with that decimal, so the embedding is exact on
    the rationals that are decimals of at most 15 significant digits within
    the range of the doubles ([shortDecimal] below); all slider values are
    of that kind.  On a rational whose expansion does not end, which no
    double is, the expansion is cut after 17 fraction digits. *)
Definition numberToString (x : Q) : string :=
  let d := Z.pos (Qden x) in
  let a := Z.abs (Qnum x) in
  if (a =? 0)%Z then "0"
  else
    (if (Qnum x <? 0)%Z then "-" else "")
    ++ match digitsAndPoint a d with
       | Some (digits, n) => layout digits n
       | None => intToString (a / d) ++ "." ++ fracDigits 17 (a mod d) d
       end.

(** The rationals on which [numberToString] is exact: 0, and the decimals
    of at most 15 significant digits between 10^-300 and 10^300. *)
Definition shortDecimal (x : Q) : bool :=
  let d := Z.pos (Qden x) in
  let a := Z.abs (Qnum x) in
  (a =? 0)%Z ||
  match digitsAndPoint a d with
  | Some (digits, n) =>
      (String.length digits <=? 15)%nat && (-300 <? n)%Z && (n <? 300)%Z
  | None => false
  end.

(** [Math.round(x)]: the integer nearest to [x], a tie going up. *)
Definition round (x : Q) : Z := Qround.Qfloor (x + (1 # 2)).

(** [x.toFixed(1)] for [|x| < 10^21]: the sign, then the integer [n]
    nearest to [10 |x|] (a tie going to the larger [n]) written with one
    digit after the point. *)
Definition toFixed1 (x : Q) : string :=
  let n := Qround.Qfloor (Qabs.Qabs x * 10 + (1 # 2)) in
  (if (Qnum x <? 0)%Z then "-" else "")
  ++ intToString (n / 10) ++ "." ++ intToString (n mod 10).

(** [x || 1] on an optional number: [undefined] and [0] are falsy. *)
Definition orOne (x : option Q) : Q :=
  match x with
  | None => 1
  | Some q => if Qeq_bool q 0 then 1 else q
  end.

End JsNumber.

(** ** Voice settings and the text export (audio-utils: [createTextFile]) *)

Module TextExport.
Import JsString JsNumber.

(** The fields of a [SpeechSynthesisVoice] the program reads. *)
Record Voice := {
  name : string;
  lang : string;
  localService : bool;
  default : bool
}.

Record VoiceSettings := {
  rate : Q;
  pitch : Q;
  volume : Q;
  voice : option Voice
}.

(** A [Blob] built from one string part. *)
Record Blob := {
  content : string;
  type : string
}.

(** Bytes of the UTF-8 encoding of the part: one per code unit below 128,
    two per code unit from 128 to 255. *)
Fixpoint utf8Length (s : string) : nat :=
  match s with
  | EmptyString => 0
  | String c rest =>
      (if (nat_of_ascii c <? 128)%nat then 1 else 2) + utf8Length rest
  end.

(** [blob.size] *)
Definition size (b : Blob) : nat := utf8Length (content b).

Definition nl : string := String (ascii_of_nat 10) EmptyString.
Definition dquote : string := String (ascii_of_nat 34) EmptyString.

(** [s || 'Default'] on an optional string: [undefined] and the empty
    string are falsy. *)
Definition orDefault (s : option string) : string :=
  match s with
  | None => "Default"
  | Some EmptyString => "Default"
  | Some s => s
  end.


Definition voiceLine (settings : VoiceSettings) : string :=
  "- Voice: " ++ orDefault (option_map name (voice settings)).

Definition languageLine (settings : VoiceSettings) : string :=
  "- Language: " ++ orDefault (option_map lang (voice settings)).

(** The lines of the template after the one with the date. *)
Definition limitationNote : string :=
  nl
  ++ "NOTE: Due to browser security limitations, the actual speech audio cannot be directly " ++ nl
  ++ "captured to a file. Use the " ++ dquote ++ "Play" ++ dquote
  ++ " button in the application to hear the speech." ++ nl
  ++ nl
  ++ "For recording actual speech audio, you would need:" ++ nl
  ++ "1. External screen/audio recording software" ++ nl
  ++ "2. Server-side TTS services (Google Cloud TTS, Amazon Polly, etc.)" ++ nl
  ++ "3. Browser extensions with special permissions" ++ nl.

Section Template.

(** [String(x)], the conversion of a number that a template literal
    applies: a parameter of the template, so that what is proved of the
    export holds whatever the conversion prints.  [JsNumber.numberToString]
    is the instance used to evaluate the export on given settings. *)
Variable ToString : Q -> string.

Definition rateLine (settings : VoiceSettings) : string :=
  "- Rate: " ++ ToString (rate settings) ++ "x".

Definition pitchLine (settings : VoiceSettings) : string :=
  "- Pitch: " ++ ToString (pitch settings).

Definition volumeLine (settings : VoiceSettings) : string :=
  "- Volume: " ++ ToString (volume settings).

(** [createTextFile(text, settings)].  [now] stands for
    [new Date().toLocaleString()], the one reading of the environment. *)
Definition createTextFile (now : string) (text : string)
    (settings : VoiceSettings) : Blob :=
  {| content :=
       "TEXT-TO-SPEECH CONTENT" ++ nl
       ++ "========================" ++ nl
       ++ nl
       ++ "Original Text:" ++ nl
       ++ text ++ nl
       ++ nl
       ++ "Voice Settings:" ++ nl
       ++ rateLine settings ++ nl
       ++ pitchLine settings ++ nl
       ++ volumeLine settings ++ nl
       ++ voiceLine settings ++ nl
       ++ languageLine settings ++ nl
       ++ nl
       ++ ("Generated: " ++ now) ++ nl
       ++ limitationNote;
     type := "text/plain" |}.

End Template.

(** The labels next to the sliders of the settings panel
    (VoiceSettings.tsx): [settings.rate.toFixed(1)],
    [settings.pitch.toFixed(1)] and [Math.round(settings.volume * 100)]
    followed by a percent sign. *)
Definition rateLabel (settings : VoiceSettings) : string :=
  toFixed1 (rate settings).

Definition pitchLabel (settings : VoiceSettings) : string :=
  toFixed1 (pitch settings).

Definition volumeLabel (settings : VoiceSettings) : string :=
  intToString (round (volume settings * 100)) ++ "%".

(** [const isTextValid = text.trim().length > 0] (TextToSpeechApp); the
    export button is enabled, and [handleDownload] proceeds, only then. *)
Definition isTextValid (text : string) : bool :=
  (0 <? String.length (trim text))%nat.

(** The settings the application starts with. *)
Definition initialSettings : VoiceSettings :=
  {| rate := 1; pitch := 1; volume := 1; voice := None |}.

End TextExport.
(** ** Playback manager (audio-utils: [TextToSpeechManager]) *)

Module Manager.
Import JsNumber TextExport.

Local Open Scope Q_scope.

Record TTSOptions := {
  text : string;
  o_voice : option Voice;
  o_rate : option Q;
  o_pitch : option Q;
  o_volume : option Q
}.

(** A [SpeechSynthesisUtterance].  [u_id] is the identity of the object:
    two utterances built from equal options are still two objects, each
    with its own handlers and its own promise. *)
Record Utterance := {
  u_id : nat;
  u_text : string;
  u_voice : option Voice;
  u_rate : Q;
  u_pitch : Q;
  u_volume : Q
}.

(** The calls the manager makes on [window.speechSynthesis]. *)
Inductive Command :=
| CancelCmd
| SpeakCmd (u : Utterance)
| PauseCmd
| ResumeCmd.

(** The speech engine, as the Web Speech API describes it: a queue of
    utterances whose head is the one being spoken, a paused flag, and (for
    the statements about order) the calls received so far, oldest first.
    [speak] appends to the queue, [cancel] empties it. *)
Record Synth := {
  queue : list Utterance;
  paused : bool;
  calls : list Command
}.

Definition synth_speak (u : Utterance) (s : Synth) : Synth :=
  {| queue := queue s ++ [u]; paused := paused s;
     calls := calls s ++ [SpeakCmd u] |}.

Definition synth_cancel (s : Synth) : Synth :=
  {| queue := []; paused := paused s; calls := calls s ++ [CancelCmd] |}.

Definition synth_pause (s : Synth) : Synth :=
  {| queue := queue s; paused := true; calls := calls s ++ [PauseCmd] |}.

Definition synth_resume (s : Synth) : Synth :=
  {| queue := queue s; paused := false; calls := calls s ++ [ResumeCmd] |}.

(** The engine is done with utterance [id] (it ended or failed). *)
Definition synth_drop (id : nat) (s : Synth) : Synth :=
  {| queue := filter (fun u => negb (u_id u =? id)%nat) (queue s);
     paused := paused s; calls := calls s |}.

(** The manager object.  [nextId] numbers the utterances it creates;
    [resolved] and [rejected] list the utterances whose [speak] promise was
    resolved, respectively rejected, most recent first. *)
Record TTS := {
  synth : Synth;
  utterance : option Utterance;
  isPlaying : bool;
  isPaused : bool;
  nextId : nat;
  resolved : list nat;
  rejected : list nat
}.

(** A manager right after [new TextToSpeechManager()], on an engine with
    nothing queued. *)
Definition init : TTS :=
  {| synth := {| queue := []; paused := false; calls := [] |};
     utterance := None; isPlaying := false; isPaused := false;
     nextId := 0; resolved := []; rejected := [] |}.

Definition createUtterance (id : nat) (options : TTSOptions) : Utterance :=
  {| u_id := id;
     u_text := text options;
     u_voice := o_voice options;
     u_rate := orOne (o_rate options);
     u_pitch := orOne (o_pitch options);
     u_volume := orOne (o_volume options) |}.

Definition stop (m : TTS) : TTS :=
  {| synth := synth_cancel (synth m);
     utterance := utterance m;
     isPlaying := false;
     isPaused := false;
     nextId := nextId m; resolved := resolved m; rejected := rejected m |}.

(** The synchronous part of [speak]: the body of the promise executor. *)
Definition speak (options : TTSOptions) (m : TTS) : TTS :=
  let m1 := if isPlaying m then stop m else m in
  let u := createUtterance (nextId m1) options in
  {| synth := synth_speak u (synth m1);
     utterance := Some u;
     isPlaying := isPlaying m1;
     isPaused := isPaused m1;
     nextId := S (nextId m1); resolved := resolved m1; rejected := rejected m1 |}.

Definition pause (m : TTS) : TTS :=
  if isPlaying m && negb (isPaused m) then
    {| synth := synth_pause (synth m);
       utterance := utterance m;
       isPlaying := isPlaying m;
       isPaused := true;
       nextId := nextId m; resolved := resolved m; rejected := rejected m |}
  else m.

Definition resume (m : TTS) : TTS :=
  if isPaused m then
    {| synth := synth_resume (synth m);
       utterance := utterance m;
       isPlaying := isPlaying m;
       isPaused := false;
       nextId := nextId m; resolved := resolved m; rejected := rejected m |}
  else m.

Record State := {
  st_isPlaying : bool;
  st_isPaused : bool;
  st_isIdle : bool
}.

Definition getState (m : TTS) : State :=
  {| st_isPlaying := isPlaying m;
     st_isPaused := isPaused m;
     st_isIdle := negb (isPlaying m) && negb (isPaused m) |}.

(** The handlers [speak] installs on the utterance numbered [id]. *)
Definition onstart (id : nat) (m : TTS) : TTS :=
  {| synth := synth m; utterance := utterance m;
     isPlaying := true;
     isPaused := false;
     nextId := nextId m; resolved := resolved m; rejected := rejected m |}.

Definition onend (id : nat) (m : TTS) : TTS :=
  {| synth := synth m; utterance := utterance m;
     isPlaying := false;
     isPaused := false;
     nextId := nextId m; resolved := id :: resolved m; rejected := rejected m |}.

Definition onerror (id : nat) (m : TTS) : TTS :=
  {| synth := synth m; utterance := utterance m;
     isPlaying := false;
     isPaused := false;
     nextId := nextId m; resolved := resolved m; rejected := id :: rejected m |}.

(** The events of an utterance. *)
Inductive Event :=
| Start (id : nat)
| End_ (id : nat)
| Error (id : nat).

(** The utterance at the head of the engine's queue, the one an engine
    that reports in order would report on.  [deliverable] describes such an
    engine; it is a condition on the environment, which the manager never
    checks: [step] delivers whatever event it is given, as the installed
    handlers run whichever utterance they belong to. *)
Definition headId (s : Synth) : option nat :=
  match queue s with
  | [] => None
  | u :: _ => Some (u_id u)
  end.

Definition eventId (e : Event) : nat :=
  match e with Start id | End_ id | Error id => id end.

Definition deliverable (e : Event) (m : TTS) : bool :=
  match headId (synth m) with
  | Some id => (id =? eventId e)%nat
  | None => false
  end.

(** Delivery of an event: the engine forgets an utterance that ended or
    failed, then the handler of that utterance runs. *)
Definition deliver (e : Event) (m : TTS) : TTS :=
  let forget id :=
    {| synth := synth_drop id (synth m); utterance := utterance m;
       isPlaying := isPlaying m; isPaused := isPaused m;
       nextId := nextId m; resolved := resolved m; rejected := rejected m |} in
  match e with
  | Start id => onstart id m
  | End_ id => onend id (forget id)
  | Error id => onerror id (forget id)
  end.

(** What can happen to a manager: a method call or an engine event. *)
Inductive Action :=
| Speak (options : TTSOptions)
| Pause
| Resume
| Stop
| Engine (e : Event).

Definition step (a : Action) (m : TTS) : TTS :=
  match a with
  | Speak options => speak options m
  | Pause => pause m
  | Resume => resume m
  | Stop => stop m
  | Engine e => deliver e m
  end.

(** The actions of [acts] in order, the head first. *)
Definition run (acts : list Action) (m : TTS) : TTS :=
  fold_left (fun m a => step a m) acts m.

(** The three states of the playback machine, read off the two flags. *)
Definition Idle (m : TTS) : Prop := isPlaying m = false /\ isPaused m = false.
Definition Playing (m : TTS) : Prop := isPlaying m = true /\ isPaused m = false.
Definition Paused (m : TTS) : Prop := isPlaying m = true /\ isPaused m = true.

End Manager.

(** ** Progress display (AudioPlayer.tsx) *)

Module Player.
Import Estimator.

Local Open Scope Q_scope.

Record Props := {
  isPlaying : bool;
  isPaused : bool;
  text : string;
  rate : Q
}.

(** The component: its props and the three [useState] cells. *)
Record Player := {
  props : Props;
  progress : Q;
  currentTime : Q;
  duration : Q
}.

(** [duration > 0 ? (newTime / duration) * 100 : 0] *)
Definition progressPercentage (newTime duration : Q) : Q :=
  if Qlt_le_dec 0 duration then (newTime / duration) * 100 else 0.

(** One run of the interval callback. *)
Definition tick (p : Player) : Player :=
  let newTime := currentTime p + (1 # 10) in
  {| props := props p;
     progress := Qmin (progressPercentage newTime (duration p)) 100;
     currentTime := newTime;
     duration := duration p |}.

(** The effect on [[text, rate]]: the estimate is stored. *)
Definition durationEffect (p : Player) : Player :=
  {| props := props p;
     progress := progress p;
     currentTime := currentTime p;
     duration := estimateDuration (text (props p)) (rate (props p)) |}.

(** The effect on [[isPlaying, isPaused]]: the progress is reset when the
    player is neither playing nor paused. *)
Definition resetEffect (p : Player) : Player :=
  if negb (isPlaying (props p)) && negb (isPaused (props p)) then
    {| props := props p; progress := 0; currentTime := 0;
       duration := duration p |}
  else p.

(** Both effects run after the first render. *)
Definition mount (pr : Props) : Player :=
  resetEffect
    (durationEffect
       {| props := pr; progress := 0; currentTime := 0; duration := 0 |}).

(** A later render runs an effect when one of its dependencies changed. *)
Definition render (pr : Props) (p : Player) : Player :=
  let old := props p in
  let p1 := {| props := pr; progress := progress p;
               currentTime := currentTime p; duration := duration p |} in
  let p2 :=
    if (text old =? text pr)%string && Qeq_bool (rate old) (rate pr)
    then p1 else durationEffect p1 in
  if Bool.eqb (isPlaying old) (isPlaying pr)
     && Bool.eqb (isPaused old) (isPaused pr)
  then p2 else resetEffect p2.

Inductive Event :=
| Tick
| Render (pr : Props).

(** The interval is installed only while [isPlaying && !isPaused]. *)
Definition step (e : Event) (p : Player) : Player :=
  match e with
  | Tick =>
      if isPlaying (props p) && negb (isPaused (props p)) then tick p else p
  | Render pr => render pr p
  end.

Definition run (evs : list Event) (p : Player) : Player :=
  fold_left (fun p e => step e p) evs p.

End Player.

(** ** Stub endpoint (app/api/text-to-speech/route.ts: [POST]) *)

Module Endpoint.
Import JsString.

Local Open Scope Q_scope.

#[local] Set Warnings "-register-all".

(** A parsed request body. *)
Inductive Json :=
| JNull
| JBool (b : bool)
| JNum (q : Q)
| JStr (s : string)
| JArr (items : list Json)
| JObj (fields : list (string * Json)).

(** The value of a property read: [None] is [undefined]. *)
Definition JsValue := option Json.

(** [JSON.parse] keeps the last of several members with one key. *)
Fixpoint lookup (key : string) (fields : list (string * Json)) : JsValue :=
  match fields with
  | [] => None
  | (k, v) :: rest =>
      match lookup key rest with
      | Some later => Some later
      | None => if (k =? key)%string then Some v else None
      end
  end.

(** Reading a property named like a request field off a parsed body:
    [None] when the read throws (the body is [null]), otherwise the value.
    Booleans, numbers, strings and arrays have no such property. *)
Definition getField (key : string) (body : Json) : option JsValue :=
  match body with
  | JNull => None
  | JObj fields => Some (lookup key fields)
  | _ => Some None
  end.

(** [!v] *)
Definition falsy (v : JsValue) : bool :=
  match v with
  | None => true
  | Some JNull => true
  | Some (JBool b) => negb b
  | Some (JNum q) => Qeq_bool q 0
  | Some (JStr s) => (String.length s =? 0)%nat
  | Some (JArr _) => false
  | Some (JObj _) => false
  end.

(** [typeof v === 'string'], with the string when it is one. *)
Definition asString (v : JsValue) : option string :=
  match v with
  | Some (JStr s) => Some s
  | _ => None
  end.

(** [ToNumber(v)], as [Math.min] applies it to its arguments, for the
    values that convert without going through a text: a number is itself,
    [null] is 0, [true] is 1 and [false] is 0.  A string, an array and an
    object convert through their text, which is not modelled: [None]. *)
Definition toNumber (v : Json) : option Q :=
  match v with
  | JNum q => Some q
  | JNull => Some 0
  | JBool b => Some (if b then 1 else 0)
  | JStr _ | JArr _ | JObj _ => None
  end.

(** [Math.max(lo, Math.min(hi, v))] for a field with default [dflt]: the
    default stands in for a missing field ([undefined]) only, not for
    [null].  The result is [None] where [toNumber] is. *)
Definition clamp (lo hi dflt : Q) (v : JsValue) : option Q :=
  match v with
  | None => Some (Qmax lo (Qmin hi dflt))
  | Some j =>
      match toNumber j with
      | Some q => Some (Qmax lo (Qmin hi q))
      | None => None
      end
  end.

Record Settings := {
  s_text : string;
  s_rate : option Q;
  s_pitch : option Q;
  s_volume : option Q;
  s_voiceName : JsValue
}.

Inductive Payload :=
| ErrorBody (error : string)
| Instructions (message : string) (settings : Settings).

Record Response := {
  status : nat;
  payload : Payload
}.

Definition textRequired : string :=
  "Text is required and must be a non-empty string".

Definition textTooLong : string :=
  "Text must be less than 5000 characters".

(** The body of the [try] block, once the body is a value whose properties
    can be read. *)
Definition validate (text rate pitch volume voiceName : JsValue) : Response :=
  match (if falsy text then None else asString text) with
  | None => {| status := 400; payload := ErrorBody textRequired |}
  | Some s =>
      if (String.length (trim s) =? 0)%nat then
        {| status := 400; payload := ErrorBody textRequired |}
      else if (5000 <? String.length s)%nat then
        {| status := 400; payload := ErrorBody textTooLong |}
      else
        {| status := 200;
           payload :=
             Instructions
               "Server-side TTS not implemented. Please use client-side Web Speech API."
               {| s_text := trim s;
                  s_rate := clamp (1 # 10) 10 1 rate;
                  s_pitch := clamp 0 2 1 pitch;
                  s_volume := clamp 0 1 1 volume;
                  s_voiceName := voiceName |} |}
  end.

(** [POST].  [body] is the outcome of [request.json()]: [None] when it
    throws (the body is not JSON).  Every exception of the [try] block ends
    in the 500 response. *)
Definition POST (body : option Json) : Response :=
  let internalError :=
    {| status := 500; payload := ErrorBody "Internal server error" |} in
  match body with
  | None => internalError
  | Some b =>
      match getField "text" b, getField "rate" b, getField "pitch" b,
            getField "volume" b, getField "voiceName" b with
      | Some text, Some rate, Some pitch, Some volume, Some voiceName =>
          validate text rate pitch volume voiceName
      | _, _, _, _, _ => internalError
      end
  end.

(** The error message of a response, if it is an error. *)
Definition errorOf (r : Response) : option string :=
  match payload r with
  | ErrorBody e => Some e
  | Instructions _ _ => None
  end.

(** The [text] member of a request, when the body has one that is a
    string. *)
Definition textOf (body : option Json) : option string :=
  match body with
  | Some (JObj fields) => asString (lookup "text" fields)
  | _ => None
  end.

End Endpoint.

(** ** Recorded export (audio-utils: [createAudioBlobWithRecording]) *)

Module Recording.
Import Estimator TextExport.

Local Open Scope Q_scope.

(** [mediaRecorder.state]; the recorder is never paused by this code. *)
Inductive RecorderState :=
| Inactive
| Recording.

(** The three callbacks handed to [setTimeout]. *)
Inductive Callback :=
| StartSpeech
| DelayedStop
| SafetyStop.

(** A pending timer: the time at which it runs, in milliseconds. *)
Record Timer := {
  due : Q;
  callback : Callback
}.

Inductive Outcome :=
| Pending
| Resolved
| Rejected (reason : string).

(** What [getDisplayMedia] answers: a refusal, or a stream with some number
    of audio tracks. *)
Inductive Capture :=
| Denied (reason : string)
| Granted (audioTracks : nat).

(** One export.  [clock] counts milliseconds from the moment the recorder
    is started; a timer set at time [c] with delay [d] runs at time
    [c + max d 0], and the latency of the host's scheduler is not part of
    the model. *)
Record Session := {
  clock : Q;
  recorder : RecorderState;
  recordingStarted : bool;
  timers : list Timer;
  spoken : bool;
  tracksLive : bool;
  outcome : Outcome
}.

(** A promise settles once. *)
Definition settle (o : Outcome) (s : Session) : Session :=
  {| clock := clock s; recorder := recorder s;
     recordingStarted := recordingStarted s; timers := timers s;
     spoken := spoken s; tracksLive := tracksLive s;
     outcome := match outcome s with Pending => o | settled => settled end |}.

Definition setTimeout (cb : Callback) (delay : Q) (s : Session) : Session :=
  {| clock := clock s; recorder := recorder s;
     recordingStarted := recordingStarted s;
     timers := timers s ++ [{| due := clock s + Qmax delay 0; callback := cb |}];
     spoken := spoken s; tracksLive := tracksLive s; outcome := outcome s |}.

(** [mediaRecorder.onstop]: the tracks are stopped and the promise is
    resolved with the recorded blob. *)
Definition onstop (s : Session) : Session :=
  settle Resolved
    {| clock := clock s; recorder := recorder s;
       recordingStarted := recordingStarted s; timers := timers s;
       spoken := spoken s; tracksLive := false; outcome := outcome s |}.

(** [mediaRecorder.stop()] followed by the [stop] event it causes. *)
Definition recorderStop (s : Session) : Session :=
  onstop
    {| clock := clock s; recorder := Inactive;
       recordingStarted := recordingStarted s; timers := timers s;
       spoken := spoken s; tracksLive := tracksLive s; outcome := outcome s |}.

(** [if (recordingStarted && mediaRecorder.state === 'recording')
    mediaRecorder.stop()] *)
Definition stopIfRecording (s : Session) : Session :=
  match recordingStarted s, recorder s with
  | true, Recording => recorderStop s
  | _, _ => s
  end.

Definition safetyDelay (text : string) (settings : VoiceSettings) : Q :=
  (estimateDuration text (rate settings) + 10) * 1000.

(** The executor of the promise, up to the end of its synchronous part. *)
Definition createAudioBlobWithRecording (text : string)
    (settings : VoiceSettings) (capture : Capture) : Session :=
  let fresh :=
    {| clock := 0; recorder := Inactive; recordingStarted := false;
       timers := []; spoken := false; tracksLive := false;
       outcome := Pending |} in
  match capture with
  | Denied reason => settle (Rejected reason) fresh
  | Granted O =>
      settle (Rejected "No audio track available from screen capture")
        {| clock := 0; recorder := Inactive; recordingStarted := false;
           timers := []; spoken := false; tracksLive := true;
           outcome := Pending |}
  | Granted (S _) =>
      setTimeout SafetyStop (safetyDelay text settings)
        (setTimeout StartSpeech 500
           {| clock := 0; recorder := Recording; recordingStarted := true;
              timers := []; spoken := false; tracksLive := true;
              outcome := Pending |})
  end.

Definition runCallback (cb : Callback) (s : Session) : Session :=
  match cb with
  | StartSpeech =>
      {| clock := clock s; recorder := recorder s;
         recordingStarted := recordingStarted s; timers := timers s;
         spoken := true; tracksLive := tracksLive s; outcome := outcome s |}
  | DelayedStop => stopIfRecording s
  | SafetyStop => stopIfRecording s
  end.

(** Timers run in the order of their due times, and in the order they were
    set when the times are equal. *)
Fixpoint insertByDue (t : Timer) (ts : list Timer) : list Timer :=
  match ts with
  | [] => [t]
  | t' :: rest =>
      if Qle_bool (due t') (due t) then t' :: insertByDue t rest
      else t :: ts
  end.

Definition sortByDue (ts : list Timer) : list Timer :=
  fold_left (fun acc t => insertByDue t acc) ts [].

Definition isDue (now : Q) (t : Timer) : bool := Qle_bool (due t) now.

(** Time passes until [t]: the timers due by then run.  No callback of this
    code sets a timer, so one pass over the due timers is the whole of
    it. *)
Definition elapse (t : Q) (s : Session) : Session :=
  let now := Qmax (clock s) t in
  let ready := sortByDue (filter (isDue now) (timers s)) in
  let s' :=
    {| clock := now; recorder := recorder s;
       recordingStarted := recordingStarted s;
       timers := filter (fun t => negb (isDue now t)) (timers s);
       spoken := spoken s; tracksLive := tracksLive s;
       outcome := outcome s |} in
  fold_left (fun s t => runCallback (callback t) s) ready s'.

(** What the environment does to a running export. *)
Inductive Event :=
| Elapse (t : Q)
| UtteranceEnd
| UtteranceError
| RecorderError
| StreamEnded.

Definition step (e : Event) (s : Session) : Session :=
  match e with
  | Elapse t => elapse t s
  | UtteranceEnd =>
      (* utterance.onend; the utterance exists once the speech was started *)
      if spoken s then setTimeout DelayedStop 1000 s else s
  | UtteranceError =>
      if spoken s then stopIfRecording s else s
  | RecorderError =>
      (* the recorder gives up; mediaRecorder.onerror *)
      match recorder s with
      | Recording =>
          settle (Rejected "Recording failed")
            {| clock := clock s; recorder := Inactive;
               recordingStarted := recordingStarted s; timers := timers s;
               spoken := spoken s; tracksLive := false;
               outcome := outcome s |}
      | Inactive => s
      end
  | StreamEnded =>
      (* the user stops sharing: the recorder stops by itself *)
      match recorder s with
      | Recording => recorderStop s
      | Inactive => s
      end
  end.

Definition run (evs : list Event) (s : Session) : Session :=
  fold_left (fun s e => step e s) evs s.

End Recording.

(** ** More of the string library *)

Module JsStringOps.
Import JsString.

(** [parts.join(sep)] *)
Fixpoint join (sep : string) (parts : list string) : string :=
  match parts with
  | [] => EmptyString
  | p :: rest =>
      match rest with
      | [] => p
      | _ :: _ => p ++ sep ++ join sep rest
      end
  end.

(** [s.slice(0, n)] for [n >= 0] *)
Definition sliceTo (n : nat) (s : string) : string := substring 0 n s.

(** [s.replace(/[:.]/g, '-')] *)
Fixpoint replaceColonsDots (s : string) : string :=
  match s with
  | EmptyString => EmptyString
  | String c rest =>
      String (if Ascii.eqb c ":" || Ascii.eqb c "." then "-"%char else c)
             (replaceColonsDots rest)
  end.

(** [s.padStart(n, c)] for a one-unit pad string. *)
Definition padStart (n : nat) (c : ascii) (s : string) : string :=
  repeat c (n - String.length s) ++ s.

(** The first and the last code unit of a string. *)
Definition first (s : string) : option ascii :=
  match s with
  | EmptyString => None
  | String c _ => Some c
  end.

Fixpoint last (s : string) : option ascii :=
  match s with
  | EmptyString => None
  | String c rest =>
      match rest with
      | EmptyString => Some c
      | String _ _ => last rest
      end
  end.

End JsStringOps.

(** ** Time display (audio-utils: [formatTime]) *)

Module Format.
Import JsString JsStringOps JsNumber.

Local Open Scope Q_scope.

(** Rounding towards zero, as the remainder operator does. *)
Definition truncate (x : Q) : Z :=
  if (Qnum x <? 0)%Z then Qceiling x else Qfloor x.

(** [x % y]: the remainder has the sign of [x]. *)
Definition remainder (x y : Q) : Q :=
  x - y * inject_Z (truncate (x / y)).

Definition formatTime (seconds : Q) : string :=
  let mins := Qfloor (seconds / 60) in
  let secs := Qfloor (remainder seconds 60) in
  (intToString mins ++ ":" ++ padStart 2 "0" (intToString secs))%string.

End Format.

(** ** Silent placeholder file (audio-utils: [createTextToSpeechInfoFile],
    [createAudioBlob]) *)

Module Wav.
Import Estimator TextExport.

Local Open Scope Z_scope.

(** The bytes of an [ArrayBuffer], seen through a [DataView]. *)
Definition Buffer := list Z.

(** The byte at [off] replaced. *)
Fixpoint store (off : nat) (v : Z) (b : Buffer) {struct b} : Buffer :=
  match b with
  | [] => []
  | x :: rest =>
      match off with
      | O => v :: rest
      | S k => x :: store k v rest
      end
  end.

(** A write of [len] bytes at [off] outside the buffer throws a
    [RangeError]: [None]. *)
Definition inRange (off len : nat) (b : Buffer) : bool :=
  (off + len <=? List.length b)%nat.

Definition setUint8 (off : nat) (v : Z) (b : Buffer) : option Buffer :=
  if inRange off 1 b then Some (store off (v mod 256) b) else None.

(** Little-endian writes, the value taken modulo the width. *)
Definition setUint16 (off : nat) (v : Z) (b : Buffer) : option Buffer :=
  if inRange off 2 b then
    Some (store (off + 1) ((v / 256) mod 256) (store off (v mod 256) b))
  else None.

Definition setInt16 (off : nat) (v : Z) (b : Buffer) : option Buffer :=
  setUint16 off v b.

Definition setUint32 (off : nat) (v : Z) (b : Buffer) : option Buffer :=
  if inRange off 4 b then
    Some (store (off + 3) ((v / 16777216) mod 256)
            (store (off + 2) ((v / 65536) mod 256)
               (store (off + 1) ((v / 256) mod 256)
                  (store off (v mod 256) b))))
  else None.

Definition andThen {A B : Type} (x : option A) (f : A -> option B) : option B :=
  match x with
  | Some a => f a
  | None => None
  end.

Notation "x >>= f" := (andThen x f) (at level 50, left associativity).

(** [writeString(offset, str)]: one byte per code unit. *)
Fixpoint writeString (offset : nat) (str : string) (b : Buffer) : option Buffer :=
  match str with
  | EmptyString => Some b
  | String c rest =>
      setUint8 offset (Z.of_nat (nat_of_ascii c)) b >>= writeString (S offset) rest
  end.

(** The loop [for (i = 0; i < numSamples; i++) setInt16(44 + i * 2, 0)],
    with [remaining] rounds to go from index [i]. *)
Fixpoint fillSilence (remaining i : nat) (b : Buffer) : option Buffer :=
  match remaining with
  | O => Some b
  | S r => setInt16 (44 + i * 2) 0 b >>= fillSilence r (S i)
  end.

(** A [Blob] built from one [ArrayBuffer]. *)
Record AudioBlob := {
  bytes : Buffer;
  mime : string
}.

Definition byteSize (blob : AudioBlob) : nat := List.length (bytes blob).

(** [Math.max(3, Math.ceil(estimateDuration(text, settings.rate)))], at a
    rate other than 0. *)
Definition duration (text : string) (settings : VoiceSettings) : Z :=
  Z.max 3 (Qceiling (estimateDuration text (rate settings))).

(** The largest length [new ArrayBuffer] takes before it asks the host:
    2^53 - 1. *)
Definition maxByteLength : Z := 9007199254740991.

Section Host.

(** Whether the host has the memory for a buffer of that many bytes. *)
Variable canAllocate : Z -> bool.

(** [new ArrayBuffer(length)]: zeros, or a [RangeError] ([None]) when the
    length is above [maxByteLength] or the host refuses it. *)
Definition newArrayBuffer (length : Z) : option Buffer :=
  if (length <=? maxByteLength) && canAllocate length then
    Some (List.repeat 0 (Z.to_nat length))
  else None.

(** [None] stands for a [RangeError], of the allocation or of one of the
    writes.  At rate 0 (the number 0; [Q] has no negative zero) the
    estimate is [Infinity], and so are the duration, the number of samples
    and the buffer size: [new ArrayBuffer(Infinity)] throws. *)
Definition createTextToSpeechInfoFile (text : string)
    (settings : VoiceSettings) : option AudioBlob :=
  if Qeq_bool (rate settings) 0 then None
  else
    let duration := duration text settings in
    let sampleRate := 44100 in
    let numChannels := 1 in
    let numSamples := sampleRate * duration in
    let bufferSize := 44 + numSamples * 2 in
    newArrayBuffer bufferSize
    >>= writeString 0 "RIFF"
    >>= setUint32 4 (bufferSize - 8)
    >>= writeString 8 "WAVE"
    >>= writeString 12 "fmt "
    >>= setUint32 16 16
    >>= setUint32 20 1
    >>= setUint16 22 numChannels
    >>= setUint32 24 sampleRate
    >>= setUint32 28 (sampleRate * numChannels * 2)
    >>= setUint16 32 (numChannels * 2)
    >>= setUint16 34 16
    >>= writeString 36 "data"
    >>= setUint32 40 (numSamples * 2)
    >>= fillSilence (Z.to_nat numSamples) 0
    >>= fun filled => Some {| bytes := filled; mime := "audio/wav" |}.

Definition createAudioBlob (text : string) (settings : VoiceSettings)
  : option AudioBlob :=
  createTextToSpeechInfoFile text settings.

End Host.

End Wav.

(** ** Saving a file (audio-utils: [downloadAudio],
    [downloadAudioWithProgress]) *)

Module Download.
Import JsString JsStringOps JsNumber TextExport Wav.

Inductive Failure :=
| Thrown (message : string)
| RangeError.

Inductive Result :=
| Saved (filename : string)
| Rejected (error : Failure).

(** The name used when none is given; [iso] is
    [new Date().toISOString()]. *)
Definition defaultFilename (iso : string) : string :=
  "speech-" ++ replaceColonsDots (sliceTo 19 iso) ++ ".wav".

(** [downloadAudio(blob, filename)].  [size] is [blob.size], 0 when there
    is no blob; [dom] is the exception a call on the document throws, if
    one does. *)
Definition downloadAudio (size : nat) (filename : option string)
    (iso : string) (dom : option string) : Result :=
  if (size =? 0)%nat then
    Rejected (Thrown "Invalid audio file - empty or corrupted")
  else
    match dom with
    | Some message => Rejected (Thrown message)
    | None =>
        Saved match filename with
              | Some (String c rest) => String c rest
              | _ => defaultFilename iso
              end
    end.

(** [downloadAudioWithProgress(text, settings, onProgress)]: the values
    passed to [onProgress], in order, and the outcome.  [nowMs] is
    [Date.now()], [canAllocate] the host's answer to [new ArrayBuffer]. *)
Definition downloadAudioWithProgress (canAllocate : Z -> bool) (text : string)
    (settings : VoiceSettings) (nowMs : Z) (iso : string) (dom : option string)
  : list Z * Result :=
  match createAudioBlob canAllocate text settings with
  | None => ([0; 25; 0]%Z, Rejected RangeError)
  | Some blob =>
      if (byteSize blob =? 0)%nat then
        ([0; 25; 75; 0]%Z, Rejected (Thrown "Failed to generate audio file"))
      else
        match downloadAudio (byteSize blob)
                (Some ("speech-" ++ intToString nowMs ++ ".wav")) iso dom with
        | Rejected e => ([0; 25; 75; 90; 0]%Z, Rejected e)
        | Saved f => ([0; 25; 75; 90; 100]%Z, Saved f)
        end
  end.

End Download.

(** ** The audio-generation endpoint (the second route file: [POST]) *)

Module AudioRoute.
Import JsString Endpoint.

Inductive Payload :=
| ErrorBody (error : string)
| NotImplemented (error message suggestion approach fallback : string).

Record Response := {
  status : nat;
  payload : Payload
}.

Definition validate (text : JsValue) : Response :=
  match (if falsy text then None else asString text) with
  | None => {| status := 400; payload := ErrorBody textRequired |}
  | Some s =>
      if (String.length (trim s) =? 0)%nat then
        {| status := 400; payload := ErrorBody textRequired |}
      else if (5000 <? String.length s)%nat then
        {| status := 400; payload := ErrorBody textTooLong |}
      else
        {| status := 501;
           payload :=
             NotImplemented
               "Server-side TTS requires external service integration"
               "Use client-side Web Speech API for actual speech generation"
               "The download feature will use browser-based audio capture instead"
               "Record browser speech synthesis output"
               "Generate placeholder audio file with text information" |}
  end.

Definition POST (body : option Json) : Response :=
  let failed :=
    {| status := 500; payload := ErrorBody "Failed to process request" |} in
  match body with
  | None => failed
  | Some b =>
      match getField "text" b, getField "rate" b, getField "pitch" b,
            getField "volume" b, getField "voiceName" b with
      | Some text, Some _, Some _, Some _, Some _ => validate text
      | _, _, _, _, _ => failed
      end
  end.

(** The [error] member of the response body. *)
Definition errorOf (r : Response) : string :=
  match payload r with
  | ErrorBody e => e
  | NotImplemented e _ _ _ _ => e
  end.

End AudioRoute.

(** ** Settings panel (VoiceSettings.tsx) *)

Module VoicePanel.
Import TextExport.

(** [loadVoices]: the settings handed to [onSettingsChange], or the
    settings as they are when the callback is not called. *)
Definition loadVoices (availableVoices : list Voice)
    (settings : VoiceSettings) : VoiceSettings :=
  match voice settings, availableVoices with
  | None, firstVoice :: _ =>
      let defaultVoice :=
        match find default availableVoices with
        | Some v => v
        | None => firstVoice
        end in
      {| rate := rate settings; pitch := pitch settings;
         volume := volume settings; voice := Some defaultVoice |}
  | _, _ => settings
  end.

Definition handleVoiceChange (voices : list Voice) (voiceName : string)
    (settings : VoiceSettings) : VoiceSettings :=
  {| rate := rate settings; pitch := pitch settings;
     volume := volume settings;
     voice := find (fun v => (name v =? voiceName)%string) voices |}.

End VoicePanel.

(** ** The page (TextToSpeechApp, with the button of AudioPlayer) *)

Module App.
Import JsString JsStringOps TextExport Manager.

Definition MAX_CHARACTER_LIMIT : nat := 5000.

(** The state of the component.  [ttsManager] is [None] when speech
    synthesis is not supported; [isPlaying] and [isPaused] are the copies
    of the manager's flags that the polling refreshes. *)
Record App := {
  text : string;
  voiceSettings : VoiceSettings;
  ttsManager : option TTS;
  isPlaying : bool;
  isPaused : bool
}.

Definition withText (t : string) (a : App) : App :=
  {| text := t; voiceSettings := voiceSettings a;
     ttsManager := ttsManager a; isPlaying := isPlaying a;
     isPaused := isPaused a |}.

Definition withManager (m : option TTS) (a : App) : App :=
  {| text := text a; voiceSettings := voiceSettings a;
     ttsManager := m; isPlaying := isPlaying a; isPaused := isPaused a |}.

Definition updatePlaybackState (a : App) : App :=
  match ttsManager a with
  | Some m =>
      {| text := text a; voiceSettings := voiceSettings a;
         ttsManager := ttsManager a;
         isPlaying := st_isPlaying (getState m);
         isPaused := st_isPaused (getState m) |}
  | None => a
  end.

Definition handleTextChange (value : string) (a : App) : App :=
  if (String.length value <=? MAX_CHARACTER_LIMIT)%nat then withText value a
  else a.

Definition handleSampleTextSelect (sampleText : string) (a : App) : App :=
  withText sampleText a.

Definition handleClearText (a : App) : App :=
  withManager (option_map stop (ttsManager a)) (withText EmptyString a).

(** The "Keep First Half" button. *)
Definition keepFirstHalf (t : string) : string :=
  let words := split_ws t in
  join " " (firstn (Nat.div2 (S (List.length words))) words).

Definition handlePlay (a : App) : App :=
  match ttsManager a with
  | None => a
  | Some m =>
      if (String.length (trim (text a)) =? 0)%nat then a
      else
        withManager
          (Some (speak {| Manager.text := trim (text a);
                          o_voice := voice (voiceSettings a);
                          o_rate := Some (rate (voiceSettings a));
                          o_pitch := Some (pitch (voiceSettings a));
                          o_volume := Some (volume (voiceSettings a)) |} m))
          a
  end.

Definition handlePause (a : App) : App :=
  match ttsManager a with
  | None => a
  | Some m =>
      withManager (Some (if isPaused a then resume m else pause m)) a
  end.

Definition handleStop (a : App) : App :=
  withManager (option_map stop (ttsManager a)) a.

(** [handlePlayPause] of the player, which receives the copies of the
    flags as props. *)
Definition handlePlayPause (a : App) : App :=
  if isPlaying a && negb (isPaused a) then handlePause a
  else if isPaused a then handlePause a
  else handlePlay a.

Definition getPlayButtonText (a : App) : string :=
  if isPlaying a && negb (isPaused a) then "Pause"
  else if isPaused a then "Resume"
  else "Play".

(** What the user and the browser can do to the page.  The play button is
    disabled unless the text is valid, the stop button unless the copies of
    the flags say playing or paused, and the text buttons unless there is a
    text. *)
Inductive Event :=
| Type_ (value : string)
| Sample (n : nat)
| ClearText
| KeepFirstHalf
| Uppercase
| Lowercase
| PlayPause
| StopButton
| Poll
| EngineEvent (e : Manager.Event)
| Settings (s : VoiceSettings).

Definition SAMPLE_TEXTS : list string :=
  [ "Hello! Welcome to our text-to-speech application. This tool converts your written text into natural-sounding speech that you can play and download.";
    "The quick brown fox jumps over the lazy dog. This sentence contains every letter of the English alphabet and is perfect for testing speech synthesis.";
    "In a hole in the ground there lived a hobbit. Not a nasty, dirty, wet hole, filled with the ends of worms and an oozy smell, nor yet a dry, bare, sandy hole with nothing in it to sit down on or to eat.";
    "To be or not to be, that is the question. Whether 'tis nobler in the mind to suffer the slings and arrows of outrageous fortune, or to take arms against a sea of troubles." ].

Section CaseMapping.

(** [String.prototype.toUpperCase] and [toLowerCase]: the case mapping of
    the host is a parameter. *)
Variables toUpperCase toLowerCase : string -> string.

Definition step (e : Event) (a : App) : App :=
  match e with
  | Type_ value => handleTextChange value a
  | Sample n =>
      match nth_error SAMPLE_TEXTS n with
      | Some sample => handleSampleTextSelect sample a
      | None => a
      end
  | ClearText =>
      if (String.length (text a) =? 0)%nat then a else handleClearText a
  | KeepFirstHalf =>
      if (String.length (text a) =? 0)%nat then a
      else withText (keepFirstHalf (text a)) a
  | Uppercase =>
      if (String.length (text a) =? 0)%nat then a
      else withText (toUpperCase (text a)) a
  | Lowercase =>
      if (String.length (text a) =? 0)%nat then a
      else withText (toLowerCase (text a)) a
  | PlayPause => if isTextValid (text a) then handlePlayPause a else a
  | StopButton =>
      if negb (isPlaying a) && negb (isPaused a) then a else handleStop a
  | Poll => updatePlaybackState a
  | EngineEvent ev => withManager (option_map (deliver ev) (ttsManager a)) a
  | Settings s =>
      {| text := text a; voiceSettings := s; ttsManager := ttsManager a;
         isPlaying := isPlaying a; isPaused := isPaused a |}
  end.

Definition run (evs : list Event) (a : App) : App :=
  fold_left (fun a e => step e a) evs a.

End CaseMapping.

(** The page after its first effects, in a browser with speech
    synthesis. *)
Definition start : App :=
  {| text := EmptyString; voiceSettings := initialSettings;
     ttsManager := Some Manager.init; isPlaying := false; isPaused := false |}.

End App.

(** * Properties *)

(** ** Strings *)

Module JsStringFacts.
Import JsString.

Example split_ws_examples :
  split_ws " a  b " = [""; "a"; "b"; ""] /\
  split_ws "" = [""] /\
  split_ws "   " = [""; ""] /\
  split_ws "one two" = ["one"; "two"].
Proof. repeat split. Qed.

Example trim_examples :
  trim "  a b  " = "a b" /\ trim "   " = "" /\ trim "" = "".
Proof. repeat split. Qed.

Example includes_examples :
  includes "- Rate: 1x" "1x" = true /\ includes "- Rate: 1x" "1.0" = false.
Proof. repeat split. Qed.

Lemma split_go_gap_allWhitespace (tok s : string) :
  allWhitespace s = true -> split_go tok true s = [tok].
Proof.
  induction s as [|c rest IH]; simpl; intros H; [reflexivity|].
  apply andb_true_iff in H as [Hc Hrest].
  rewrite Hc. now apply IH.
Qed.

(** A text of whitespace only splits into one empty token when it is empty
    and into two empty tokens otherwise. *)
Lemma split_ws_allWhitespace (s : string) :
  allWhitespace s = true ->
  split_ws s = match s with
               | EmptyString => [EmptyString]
               | String _ _ => [EmptyString; EmptyString]
               end.
Proof.
  destruct s as [|c rest]; simpl; intros H; [reflexivity|].
  apply andb_true_iff in H as [Hc Hrest].
  unfold split_ws; simpl. rewrite Hc.
  now rewrite split_go_gap_allWhitespace.
Qed.

Lemma split_go_nonempty (tok : string) (g : bool) (s : string) :
  (1 <= List.length (split_go tok g s))%nat.
Proof.
  revert tok g; induction s as [|c rest IH]; intros tok g; simpl.
  - lia.
  - destruct (isWhitespace c).
    + destruct g; [apply IH | simpl; lia].
    + apply IH.
Qed.

Lemma startsWith_refl_app (p rest : string) : startsWith p (p ++ rest) = true.
Proof.
  induction p as [|a p IH]; simpl; [reflexivity|].
  now rewrite Ascii.eqb_refl.
Qed.

Lemma includes_here (p rest : string) : includes (p ++ rest) p = true.
Proof.
  destruct (p ++ rest) eqn:E; simpl.
  - destruct p; [reflexivity | discriminate].
  - rewrite <- E, startsWith_refl_app. reflexivity.
Qed.

Lemma includes_later (before s p : string) :
  includes s p = true -> includes (before ++ s) p = true.
Proof.
  intros H. induction before as [|a before IH]; simpl; [exact H|].
  rewrite IH. apply orb_true_r.
Qed.

End JsStringFacts.

(** ** Number formatting *)

Module JsNumberFacts.
Import JsNumber.

Local Open Scope Q_scope.

Example numberToString_examples :
  numberToString 1 = "1" /\ numberToString (7 # 10) = "0.7" /\
  numberToString (3 # 2) = "1.5" /\ numberToString (-5 # 2) = "-2.5" /\
  numberToString 0 = "0" /\ numberToString (125 # 100) = "1.25".
Proof. repeat split. Qed.

Example numberToString_layouts :
  numberToString 100 = "100" /\
  numberToString (1 # 1000000) = "0.000001" /\
  numberToString (1 # 10000000) = "1e-7" /\
  numberToString (15 # 100000000) = "1.5e-7" /\
  numberToString (-(1 # 10000000)) = "-1e-7" /\
  numberToString 123456789012345680000 = "123456789012345680000" /\
  numberToString 1000000000000000000000 = "1e+21" /\
  numberToString 1234500000000000000000000 = "1.2345e+24" /\
  numberToString (2001 # 2) = "1000.5".
Proof. repeat split. Qed.

Example shortDecimal_examples :
  shortDecimal 1 = true /\ shortDecimal (7 # 10) = true /\
  shortDecimal (1 # 10000000) = true /\ shortDecimal (1 # 3) = false.
Proof. repeat split. Qed.

Example toFixed1_examples :
  toFixed1 1 = "1.0" /\ toFixed1 (7 # 10) = "0.7" /\
  toFixed1 (125 # 100) = "1.3" /\ toFixed1 2 = "2.0".
Proof. repeat split. Qed.

Example round_examples :
  round (80 # 1) = 80%Z /\ round (5 # 2) = 3%Z /\ round (-5 # 2) = (-2)%Z.
Proof. repeat split. Qed.

End JsNumberFacts.

(** ** Duration estimate *)

Module EstimatorFacts.
Import JsString JsStringFacts Estimator.

Local Open Scope Q_scope.

Lemma wordCount_pos (text : string) : (1 <= wordCount text)%nat.
Proof. apply split_go_nonempty. Qed.

Lemma wordCount_Q_pos (text : string) :
  0 < inject_Z (Z.of_nat (wordCount text)).
Proof.
  pose proof (wordCount_pos text) as H.
  change 0 with (inject_Z 0). rewrite <- Zlt_Qlt. lia.
Qed.

(** The estimator counts one word in the empty text and two in any other
    text of whitespace only. *)
Lemma wordCount_allWhitespace (text : string) :
  allWhitespace text = true ->
  wordCount text = match text with EmptyString => 1%nat | _ => 2%nat end.
Proof.
  intros H. unfold wordCount. rewrite (split_ws_allWhitespace _ H).
  now destruct text.
Qed.

(** The count shown in the interface is 0 on every such text. *)
Lemma displayedWordCount_allWhitespace (text : string) :
  allWhitespace text = true -> displayedWordCount text = 0%nat.
Proof.
  intros H. unfold displayedWordCount. rewrite (split_ws_allWhitespace _ H).
  now destruct text.
Qed.

Lemma wordsPerMinute_pos (r : Q) : 0 < r -> 0 < wordsPerMinute r.
Proof. intros H. unfold wordsPerMinute. now apply Qmult_lt_0_compat. Qed.

Lemma estimateDuration_pos (text : string) (r : Q) :
  0 < r -> 0 < estimateDuration text r.
Proof.
  intros Hr. unfold estimateDuration, Qdiv.
  repeat apply Qmult_lt_0_compat; try reflexivity.
  - apply wordCount_Q_pos.
  - apply Qinv_lt_0_compat. now apply wordsPerMinute_pos.
Qed.

(** C1, at the input where it fails: for the empty text at rate 1 the
    estimator counts one word and returns 60/155 = 12/31 seconds, not 0,
    while the word count displayed beside the estimate is 0. *)
Theorem estimateDuration_empty_text :
  wordCount "" = 1%nat /\
  displayedWordCount "" = 0%nat /\
  estimateDuration "" 1 == 12 # 31 /\
  ~ estimateDuration "" 1 == 0.
Proof.
  repeat split; try reflexivity.
  intros H. vm_compute in H. discriminate H.
Qed.

(** No text of whitespace only is estimated at 0 seconds, at any positive
    rate: the estimate is that of one or two words. *)
Lemma estimateDuration_allWhitespace (text : string) (r : Q) :
  allWhitespace text = true -> 0 < r ->
  0 < estimateDuration text r /\
  estimateDuration text r ==
    match text with
    | EmptyString => 60 / (155 * r)
    | _ => 120 / (155 * r)
    end.
Proof.
  intros Hws Hr. split; [now apply estimateDuration_pos|].
  assert (Hne : ~ r == 0).
  { intros E. rewrite E in Hr. discriminate Hr. }
  unfold estimateDuration, wordsPerMinute.
  rewrite (wordCount_allWhitespace _ Hws).
  destruct text; simpl inject_Z; field; exact Hne.
Qed.

(** C7: for a fixed text and rates [0 < r1 < r2], the estimate at [r2] is
    at most the estimate at [r1]. *)
Theorem estimateDuration_antitone (text : string) (r1 r2 : Q) :
  0 < r1 -> r1 < r2 ->
  estimateDuration text r2 <= estimateDuration text r1.
Proof.
  intros H1 H12.
  assert (H2 : 0 < r2) by (eapply Qlt_trans; eassumption).
  unfold estimateDuration, Qdiv.
  apply Qmult_le_compat_r; [|discriminate].
  apply Qmult_le_l; [apply wordCount_Q_pos|].
  apply Qlt_le_weak.
  apply -> Qinv_lt_contravar; try now apply wordsPerMinute_pos.
  unfold wordsPerMinute. apply Qmult_lt_l; [reflexivity | exact H12].
Qed.

Lemma estimateDuration_antitone_witness :
  0 < 1 /\ 1 < 2 /\
  estimateDuration "Hello world" 2 <= estimateDuration "Hello world" 1.
Proof.
  split; [reflexivity|]. split; [reflexivity|].
  apply (estimateDuration_antitone "Hello world" 1 2); reflexivity.
Defined.

(** C9: the text "Hello world" has two words, and at rate 1 its estimate is
    (2/155) * 60 seconds, which lies between 0.774 and 0.775. *)
Theorem estimateDuration_hello_world :
  split_ws "Hello world" = ["Hello"; "world"] /\
  wordCount "Hello world" = 2%nat /\
  estimateDuration "Hello world" 1 == (2 / 155) * 60 /\
  774 # 1000 <= estimateDuration "Hello world" 1 /\
  estimateDuration "Hello world" 1 < 775 # 1000.
Proof.
  repeat split; try reflexivity.
  vm_compute. discriminate.
Qed.

End EstimatorFacts.

(** ** Text export *)

Module TextExportFacts.
Import JsString JsStringFacts JsNumber TextExport.

Lemma utf8Length_pos (s : string) : s <> EmptyString -> (0 < utf8Length s)%nat.
Proof.
  destruct s as [|c rest]; [congruence|]. intros _. simpl.
  destruct (nat_of_ascii c <? 128)%nat; lia.
Qed.

(** Finds the block [p] in a concatenation [b1 ++ b2 ++ ... ++ bn]. *)
Ltac find_block :=
  repeat first [ apply includes_here | apply includes_later ].

(** C2 as stated fails on the settings the application starts with
    (rate 1, pitch 1, volume 1, no voice): the one-decimal form of the rate
    and of the pitch is "1.0" and the percentage form of the volume is
    "100%", and neither occurs in the exported text, which reads
    "- Rate: 1x", "- Pitch: 1" and "- Volume: 1". *)
Lemma createTextFile_initialSettings_unformatted :
  let blob :=
    createTextFile numberToString "9/13/2025, 9:00:02 PM" "Hello world"
      initialSettings in
  isTextValid "Hello world" = true /\
  shortDecimal (rate initialSettings) = true /\
  numberToString (rate initialSettings) = "1" /\
  rateLabel initialSettings = "1.0" /\
  pitchLabel initialSettings = "1.0" /\
  volumeLabel initialSettings = "100%" /\
  includes (content blob) (rateLabel initialSettings) = false /\
  includes (content blob) (pitchLabel initialSettings) = false /\
  includes (content blob) (volumeLabel initialSettings) = false /\
  includes (content blob) ("- Rate: 1x" ++ nl) = true /\
  includes (content blob) ("- Pitch: 1" ++ nl) = true /\
  includes (content blob) ("- Volume: 1" ++ nl) = true.
Proof. vm_compute. repeat split. Qed.

(** C2, amended: for every valid text and every settings record the export
    is a non-empty plain-text payload that contains the text as given and
    the settings as the template literal prints them, whatever its
    conversion [ToString] of a number to a string yields: the converted
    rate followed by "x", the converted pitch, the converted volume, and
    the voice name and language, or "Default". *)
Theorem createTextFile_contents (ToString : Q -> string) (now text : string)
    (settings : VoiceSettings) :
  isTextValid text = true ->
  let blob := createTextFile ToString now text settings in
  (0 < size blob)%nat /\
  type blob = "text/plain" /\
  includes (content blob) text = true /\
  includes (content blob)
    ("- Rate: " ++ ToString (rate settings) ++ "x") = true /\
  includes (content blob)
    ("- Pitch: " ++ ToString (pitch settings)) = true /\
  includes (content blob)
    ("- Volume: " ++ ToString (volume settings)) = true /\
  includes (content blob)
    ("- Voice: " ++ orDefault (option_map name (voice settings))) = true /\
  includes (content blob)
    ("- Language: " ++ orDefault (option_map lang (voice settings))) = true.
Proof.
  intros _ blob. subst blob. unfold size, createTextFile.
  cbn [content type].
  split; [apply utf8Length_pos; discriminate|].
  split; [reflexivity|].
  split; [find_block|].
  split; [change ("- Rate: " ++ ToString (rate settings) ++ "x")
            with (rateLine ToString settings); find_block|].
  split; [change ("- Pitch: " ++ ToString (pitch settings))
            with (pitchLine ToString settings); find_block|].
  split; [change ("- Volume: " ++ ToString (volume settings))
            with (volumeLine ToString settings); find_block|].
  split; [change ("- Voice: " ++ orDefault (option_map name (voice settings)))
            with (voiceLine settings); find_block|].
  change ("- Language: " ++ orDefault (option_map lang (voice settings)))
    with (languageLine settings); find_block.
Qed.

Lemma createTextFile_contents_witness :
  isTextValid "Hello world" = true /\
  let blob :=
    createTextFile numberToString "9/13/2025, 9:00:02 PM" "Hello world"
      initialSettings in
  (0 < size blob)%nat /\
  includes (content blob) "Hello world" = true /\
  includes (content blob) "- Rate: 1x" = true.
Proof.
  split; [reflexivity|].
  pose proof (createTextFile_contents numberToString "9/13/2025, 9:00:02 PM"
                "Hello world" initialSettings eq_refl) as H.
  cbv zeta in H. destruct H as (Hsize & _ & Htext & Hrate & _).
  split; [exact Hsize|]. split; [exact Htext | exact Hrate].
Defined.

End TextExportFacts.

(** ** Playback manager *)

Module ManagerFacts.
Import Manager.

Local Open Scope nat_scope.
Local Open Scope list_scope.

(** The invariant of the two flags. *)
Definition flags_ok (m : TTS) : Prop := isPaused m = true -> isPlaying m = true.

(** Every queued utterance was numbered before [nextId]. *)
Definition ids_ok (m : TTS) : Prop :=
  Forall (fun u => u_id u < nextId m) (queue (synth m)).

Ltac case_flags m :=
  destruct (isPlaying m) eqn:?, (isPaused m) eqn:?; simpl; intros Hinv H;
  try reflexivity; try discriminate H;
  try (specialize (Hinv eq_refl); discriminate Hinv); try congruence.

Lemma step_flags_ok (a : Action) (m : TTS) : flags_ok m -> flags_ok (step a m).
Proof.
  unfold flags_ok. destruct a as [options| | | |e]; simpl.
  - unfold speak. case_flags m.
  - unfold pause. case_flags m.
  - unfold resume. case_flags m.
  - intros _ H. discriminate H.
  - destruct e; simpl; intros _ H; discriminate H.
Qed.

Lemma Forall_lt_S (l : list Utterance) (n : nat) :
  Forall (fun u => u_id u < n) l -> Forall (fun u => u_id u < S n) l.
Proof. apply Forall_impl. intros u H. lia. Qed.

Lemma Forall_filter_keep {A} (P : A -> Prop) (f : A -> bool) (l : list A) :
  Forall P l -> Forall P (filter f l).
Proof.
  induction 1 as [|x l Hx Hl IH]; simpl; [constructor|].
  destruct (f x); [constructor|]; assumption.
Qed.

Lemma step_ids_ok (a : Action) (m : TTS) : ids_ok m -> ids_ok (step a m).
Proof.
  unfold ids_ok. intros H. destruct a as [options| | | |e]; simpl.
  - unfold speak. destruct (isPlaying m); simpl.
    + repeat constructor.
    + apply Forall_app. split; [now apply Forall_lt_S|].
      repeat constructor.
  - unfold pause. destruct (isPlaying m && negb (isPaused m)); exact H.
  - unfold resume. destruct (isPaused m); exact H.
  - constructor.
  - destruct e; simpl; try exact H; now apply Forall_filter_keep.
Qed.

Lemma run_snoc (acts : list Action) (a : Action) (m : TTS) :
  run (acts ++ [a]) m = step a (run acts m).
Proof. unfold run. now rewrite fold_left_app. Qed.

(** Induction over the states reachable from [init]. *)
Lemma reachable_ind (P : TTS -> Prop) :
  P init -> (forall a m, P m -> P (step a m)) ->
  forall acts, P (run acts init).
Proof.
  intros H0 Hstep acts. induction acts as [|a acts IH] using rev_ind.
  - exact H0.
  - rewrite run_snoc. now apply Hstep.
Qed.

Lemma reachable_flags_ok (acts : list Action) : flags_ok (run acts init).
Proof.
  apply reachable_ind; [intros H; discriminate H | apply step_flags_ok].
Qed.

Lemma reachable_ids_ok (acts : list Action) : ids_ok (run acts init).
Proof. apply reachable_ind; [constructor | apply step_ids_ok]. Qed.

(** When nothing is playing, [speak] queues behind whatever the engine
    still holds: the guard of [speak] looks at [isPlaying] only, which
    becomes true when the engine reports the start. *)
Lemma speak_while_not_playing (options : TTSOptions) (m : TTS) :
  isPlaying m = false ->
  let u := createUtterance (nextId m) options in
  calls (synth (speak options m)) = calls (synth m) ++ [SpeakCmd u] /\
  queue (synth (speak options m)) = queue (synth m) ++ [u].
Proof. intros H. unfold speak. rewrite H. simpl. split; reflexivity. Qed.

(** C3: when [speak] is called while [isPlaying] is true, the engine is
    told to cancel and only then to speak the new utterance; right after the
    call the engine holds the new utterance and no other, the manager's
    [currentUtterance] is the new one, a completion of the new utterance
    resolves the new promise, and no utterance queued before the call is
    still queued. *)
Theorem speak_while_playing_cancels_first
    (acts : list Action) (options : TTSOptions) :
  let m := run acts init in
  isPlaying m = true ->
  let u := createUtterance (nextId m) options in
  let m' := speak options m in
  calls (synth m') = calls (synth m) ++ [CancelCmd; SpeakCmd u] /\
  queue (synth m') = [u] /\
  utterance m' = Some u /\
  resolved (deliver (End_ (u_id u)) m') = u_id u :: resolved m /\
  (forall old, In old (queue (synth m)) -> ~ In old (queue (synth m'))).
Proof.
  intros m Hplaying u m'.
  assert (Hq : queue (synth m') = [u]).
  { subst m' u. unfold speak. rewrite Hplaying. reflexivity. }
  split.
  { subst m' u. unfold speak. rewrite Hplaying. simpl.
    rewrite <- app_assoc. reflexivity. }
  split; [exact Hq|].
  split.
  { subst m' u. unfold speak. rewrite Hplaying. reflexivity. }
  split.
  - subst m' u. unfold speak. rewrite Hplaying. reflexivity.
  - intros old Hold Hin. rewrite Hq in Hin.
    destruct Hin as [<-|[]].
    pose proof (reachable_ids_ok acts) as Hids. unfold ids_ok in Hids.
    rewrite Forall_forall in Hids. specialize (Hids _ Hold).
    subst u. simpl in Hids. fold m in Hids. lia.
Qed.

Definition hello : TTSOptions :=
  {| text := "Hello"; o_voice := None; o_rate := None; o_pitch := None;
     o_volume := None |}.

Definition world : TTSOptions :=
  {| text := "world"; o_voice := None; o_rate := Some (3 # 2);
     o_pitch := None; o_volume := None |}.

Lemma speak_while_playing_cancels_first_witness :
  let m := run [Speak hello; Engine (Start 0)] init in
  isPlaying m = true /\
  queue (synth (speak world m)) = [createUtterance 1 world] /\
  calls (synth (speak world m)) =
    [SpeakCmd (createUtterance 0 hello); CancelCmd;
     SpeakCmd (createUtterance 1 world)].
Proof.
  split; [reflexivity|].
  destruct (speak_while_playing_cancels_first
              [Speak hello; Engine (Start 0)] world eq_refl)
    as (Hcalls & Hqueue & _).
  split; [exact Hqueue | exact Hcalls].
Defined.

(** The two further parts of C3 fail.  "At most one utterance is
    ever active": the guard of [speak] reads [isPlaying], which is still
    false until the engine reports the start, so a second [speak] before
    that report cancels nothing and the engine holds both utterances.
    "Only the latest session is attributed a completion": the handlers
    [speak] installed on the first utterance stay live after the cancel and
    nothing compares their utterance with [currentUtterance]; when the
    engine reports on the first utterance after the second has started, its
    handler resolves (or rejects) the first promise and clears [isPlaying]
    while the second utterance is the one the engine holds, after which
    [pause] does nothing and a third [speak] queues behind the second
    instead of cancelling it. *)
Lemma speak_claim_fails :
  (let m := run [Speak hello; Speak world] init in
   calls (synth m) =
     [SpeakCmd (createUtterance 0 hello); SpeakCmd (createUtterance 1 world)]
   /\ queue (synth m) = [createUtterance 0 hello; createUtterance 1 world]) /\
  (let before := run [Speak hello; Engine (Start 0)] init in
   let m := run [Speak world; Engine (Start 1)] before in
   isPlaying before = true /\
   utterance m = Some (createUtterance 1 world) /\
   queue (synth m) = [createUtterance 1 world] /\
   (let m' := step (Engine (End_ 0)) m in
    resolved m' = [0] /\
    isPlaying m' = false /\
    st_isIdle (getState m') = true /\
    queue (synth m') = [createUtterance 1 world] /\
    pause m' = m' /\
    queue (synth (speak hello m')) =
      [createUtterance 1 world; createUtterance 2 hello]) /\
   (let m' := step (Engine (Error 0)) m in
    rejected m' = [0] /\
    resolved m' = [] /\
    isPlaying m' = false /\
    queue (synth m') = [createUtterance 1 world])).
Proof. repeat split. Qed.

(** C4: whatever happens between a [speak] and a [stop] (any number of
    [pause] and [resume] calls, and engine events as well), [stop] tells the
    engine to cancel and leaves both flags false, so [getState()] reports
    idle, and the engine queue empty; a second [stop] changes none of
    that. *)
Theorem stop_after_play_is_idle
    (m : TTS) (options : TTSOptions) (between : list Action) :
  let before := run between (speak options m) in
  let m' := stop before in
  isPlaying m' = false /\
  isPaused m' = false /\
  st_isIdle (getState m') = true /\
  calls (synth m') = calls (synth before) ++ [CancelCmd] /\
  queue (synth m') = [] /\
  getState (stop m') = getState m'.
Proof. simpl. repeat split. Qed.

(** C10: in every state reachable from the initial one by method calls and
    utterance events, [isPaused] implies [isPlaying]; the state is exactly
    one of idle, playing and paused; [pause] changes nothing unless the
    state is playing, and [resume] changes nothing unless it is paused. *)
Theorem reachable_states (acts : list Action) :
  let m := run acts init in
  (isPaused m = true -> isPlaying m = true) /\
  ((Idle m /\ ~ Playing m /\ ~ Paused m) \/
   (~ Idle m /\ Playing m /\ ~ Paused m) \/
   (~ Idle m /\ ~ Playing m /\ Paused m)) /\
  (~ Playing m -> pause m = m) /\
  (~ Paused m -> resume m = m).
Proof.
  intros m. pose proof (reachable_flags_ok acts) as Hinv.
  fold m in Hinv. unfold flags_ok in Hinv.
  unfold Idle, Playing, Paused, pause, resume.
  destruct (isPlaying m) eqn:Hp, (isPaused m) eqn:Hq; simpl.
  - split; [auto|]. split; [|split; [reflexivity | intros H; exfalso; auto]].
    right; right. repeat split; intros [? ?]; discriminate.
  - split; [auto|]. split; [|split; [intros H; exfalso; auto | reflexivity]].
    right; left. repeat split; intros [? ?]; discriminate.
  - specialize (Hinv eq_refl). discriminate Hinv.
  - split; [auto|]. split; [|split; reflexivity].
    left. repeat split; intros [? ?]; discriminate.
Qed.

End ManagerFacts.

(** ** Progress display *)

Module PlayerFacts.
Import Player.

Local Open Scope Q_scope.

(** What the component maintains: a progress within the bar and a time
    that is not negative. *)
Definition within_bar (p : Player) : Prop :=
  (0 <= progress p /\ progress p <= 100) /\ 0 <= currentTime p.

Lemma progressPercentage_nonneg (newTime duration : Q) :
  0 <= newTime -> 0 <= progressPercentage newTime duration.
Proof.
  intros H. unfold progressPercentage.
  destruct (Qlt_le_dec 0 duration) as [Hd|Hd]; [|discriminate].
  apply Qmult_le_0_compat; [|discriminate].
  apply Qle_shift_div_l; [exact Hd|].
  now rewrite Qmult_0_l.
Qed.

Lemma tick_within_bar (p : Player) : within_bar p -> within_bar (tick p).
Proof.
  intros [_ Ht]. unfold within_bar, tick; simpl.
  assert (Hnew : 0 <= currentTime p + (1 # 10)).
  { apply (Qplus_le_compat 0 _ 0 _); [exact Ht | discriminate]. }
  repeat split.
  - apply Q.min_glb; [now apply progressPercentage_nonneg | discriminate].
  - apply Q.le_min_r.
  - exact Hnew.
Qed.

Lemma durationEffect_within_bar (p : Player) :
  within_bar p -> within_bar (durationEffect p).
Proof. intros H. exact H. Qed.

Lemma resetEffect_within_bar (p : Player) :
  within_bar p -> within_bar (resetEffect p).
Proof.
  intros H. unfold resetEffect.
  destruct (negb (isPlaying (props p)) && negb (isPaused (props p)));
    [|exact H].
  unfold within_bar; simpl. repeat split; discriminate.
Qed.

Lemma render_within_bar (pr : Props) (p : Player) :
  within_bar p -> within_bar (render pr p).
Proof.
  intros H. unfold render.
  destruct (Bool.eqb _ _ && Bool.eqb _ _);
    destruct ((_ =? _)%string && Qeq_bool _ _);
    repeat first [ apply resetEffect_within_bar
                 | apply durationEffect_within_bar ];
    exact H.
Qed.

Lemma step_within_bar (e : Event) (p : Player) :
  within_bar p -> within_bar (step e p).
Proof.
  intros H. destruct e as [|pr]; simpl.
  - destruct (isPlaying (props p) && negb (isPaused (props p)));
      [now apply tick_within_bar | exact H].
  - now apply render_within_bar.
Qed.

Lemma run_within_bar (evs : list Event) (p : Player) :
  within_bar p -> within_bar (run evs p).
Proof.
  revert p. induction evs as [|e evs IH]; intros p H; simpl; [exact H|].
  apply IH. now apply step_within_bar.
Qed.

Lemma mount_within_bar (pr : Props) : within_bar (mount pr).
Proof.
  apply resetEffect_within_bar, durationEffect_within_bar.
  unfold within_bar; simpl. repeat split; discriminate.
Qed.

(** C6: in every state the player reaches from its mounting, by interval
    ticks and renderings with any props, the progress lies between 0 and
    100, as does the value computed from any elapsed time that is not
    negative and any estimate; a tick sets the progress to
    min(100, elapsed / duration * 100), where elapsed is the time after the
    tick, when the duration is positive, and to 0 when the duration is 0,
    however long the elapsed time. *)
Theorem progress_clamped (pr : Props) (evs : list Event) :
  let p := run evs (mount pr) in
  let elapsed := currentTime p + (1 # 10) in
  (0 <= progress p /\ progress p <= 100) /\
  (0 <= progress (tick p) /\ progress (tick p) <= 100) /\
  (forall time estimate : Q, 0 <= time ->
     0 <= Qmin (progressPercentage time estimate) 100 /\
     Qmin (progressPercentage time estimate) 100 <= 100) /\
  (0 < duration p ->
   progress (tick p) == Qmin 100 (elapsed / duration p * 100)) /\
  (duration p == 0 -> progress (tick p) == 0).
Proof.
  intros p elapsed.
  assert (Hp : within_bar p) by (apply run_within_bar, mount_within_bar).
  split; [apply Hp|].
  split; [apply (tick_within_bar p Hp)|].
  split.
  { intros time estimate Htime. split; [|apply Q.le_min_r].
    apply Q.min_glb; [now apply progressPercentage_nonneg | discriminate]. }
  unfold tick, progressPercentage; simpl. fold elapsed. split.
  - intros Hd. destruct (Qlt_le_dec 0 (duration p)) as [_|Hle].
    + apply Q.min_comm.
    + exfalso. exact (Qlt_not_le _ _ Hd Hle).
  - intros Hd. destruct (Qlt_le_dec 0 (duration p)) as [Hlt|_].
    + exfalso. rewrite Hd in Hlt. discriminate Hlt.
    + reflexivity.
Qed.

Definition playingHello : Props :=
  {| isPlaying := true; isPaused := false; text := "Hello world"; rate := 1 |}.

(** After twenty ticks (two seconds) of a text estimated at 24/31 of a
    second the bar is full. *)
Lemma progress_clamped_witness :
  let p := run (List.repeat Tick 20) (mount playingHello) in
  0 < duration p /\
  progress (tick p) == Qmin 100 ((currentTime p + (1 # 10)) / duration p * 100) /\
  progress (tick p) == 100.
Proof.
  split; [reflexivity|].
  destruct (progress_clamped playingHello (List.repeat Tick 20))
    as (_ & _ & _ & Hpos & _).
  split; [apply Hpos; reflexivity | reflexivity].
Defined.

End PlayerFacts.

(** ** Stub endpoint *)

Module EndpointFacts.
Import JsString Endpoint.

Local Open Scope nat_scope.

(** A body whose properties can be read: JSON, and not [null]. *)
Definition readable (body : option Json) : Prop :=
  exists b, body = Some b /\ b <> JNull.

Lemma POST_readable (b : Json) :
  b <> JNull ->
  exists text rate pitch volume voiceName,
    getField "text" b = Some text /\
    textOf (Some b) = asString text /\
    POST (Some b) = validate text rate pitch volume voiceName.
Proof.
  intros Hb. destruct b; try (now elim Hb);
    simpl; repeat eexists; reflexivity.
Qed.

Lemma validate_not_string (text rate pitch volume voiceName : JsValue) :
  asString text = None ->
  validate text rate pitch volume voiceName =
    {| status := 400; payload := ErrorBody textRequired |}.
Proof.
  intros H. unfold validate. rewrite H.
  now destruct (falsy text).
Qed.

Lemma checked_string (c : ascii) (s : string) :
  (if falsy (Some (JStr (String c s))) then None
   else asString (Some (JStr (String c s)))) = Some (String c s).
Proof. reflexivity. Qed.

Lemma validate_string (s : string) (rate pitch volume voiceName : JsValue) :
  validate (Some (JStr s)) rate pitch volume voiceName =
    if String.length (trim s) =? 0 then
      {| status := 400; payload := ErrorBody textRequired |}
    else if 5000 <? String.length s then
      {| status := 400; payload := ErrorBody textTooLong |}
    else
      validate (Some (JStr s)) rate pitch volume voiceName.
Proof.
  destruct s as [|c s]; [reflexivity|].
  unfold validate. rewrite checked_string.
  destruct (String.length (trim (String c s)) =? 0); [reflexivity|].
  now destruct (5000 <? String.length (String c s)).
Qed.

Lemma validate_accepts (s : string) (rate pitch volume voiceName : JsValue) :
  String.length (trim s) <> 0 -> String.length s <= 5000 ->
  status (validate (Some (JStr s)) rate pitch volume voiceName) = 200.
Proof.
  intros Htrim Hlen.
  destruct s as [|c s]; [now elim Htrim|].
  unfold validate. rewrite checked_string.
  destruct (Nat.eqb_spec (String.length (trim (String c s))) 0); [contradiction|].
  destruct (Nat.ltb_spec 5000 (String.length (String c s))); [lia | reflexivity].
Qed.

Lemma asString_Some (v : JsValue) (s : string) :
  asString v = Some s -> v = Some (JStr s).
Proof. destruct v as [[]|]; simpl; congruence. Qed.

(** C5 as stated fails in two places.  A text of 5001 spaces is longer than
    5000, yet the answer carries the message of the first check: the text
    is empty after trimming and that check comes first.  And a body that is
    JSON [null] has no text, yet the answer is the 500 of the [catch]
    block, since reading a property of [null] throws. *)
Lemma POST_claim_fails :
  let blank := JsString.repeat " " 5001 in
  let body := Some (JObj [("text", JStr blank)]) in
  (textOf body = Some blank /\
   String.length blank = 5001 /\
   status (POST body) = 400 /\
   errorOf (POST body) = Some "Text is required and must be a non-empty string" /\
   errorOf (POST body) <> Some "Text must be less than 5000 characters") /\
  (textOf (Some JNull) = None /\
   status (POST (Some JNull)) = 500 /\
   status (POST (Some JNull)) <> 400).
Proof. vm_compute. repeat split; discriminate. Qed.

(** C5, amended: for a request whose body can be read, the answer is 400
    with "Text is required and must be a non-empty string" when the text is
    missing, not a string or empty after trimming; 400 with "Text must be
    less than 5000 characters" when the text is a string that is not empty
    after trimming and is longer than 5000; and 200 otherwise.  A body that
    is not JSON, or is [null], is answered with 500. *)
Theorem POST_validation (body : option Json) :
  (readable body ->
   (textOf body = None \/
    exists s, textOf body = Some s /\ String.length (trim s) = 0) ->
   POST body =
     {| status := 400;
        payload := ErrorBody "Text is required and must be a non-empty string" |}) /\
  (readable body ->
   forall s, textOf body = Some s ->
     String.length (trim s) <> 0 -> 5000 < String.length s ->
   POST body =
     {| status := 400;
        payload := ErrorBody "Text must be less than 5000 characters" |}) /\
  (readable body ->
   forall s, textOf body = Some s ->
     String.length (trim s) <> 0 -> String.length s <= 5000 ->
   status (POST body) = 200) /\
  (~ readable body -> status (POST body) = 500).
Proof.
  repeat split.
  - intros (b & -> & Hb) Htext.
    destruct (POST_readable b Hb) as (text & r & p & v & n & _ & Ht & ->).
    rewrite Ht in Htext. destruct Htext as [Hnone|(s & Hs & Hblank)].
    + now apply validate_not_string.
    + apply asString_Some in Hs. subst text.
      rewrite validate_string, Hblank. reflexivity.
  - intros (b & -> & Hb) s Hs Htrim Hlong.
    destruct (POST_readable b Hb) as (text & r & p & v & n & _ & Ht & ->).
    rewrite Ht in Hs. apply asString_Some in Hs. subst text.
    rewrite validate_string.
    destruct (Nat.eqb_spec (String.length (trim s)) 0); [contradiction|].
    destruct (Nat.ltb_spec 5000 (String.length s)); [reflexivity | lia].
  - intros (b & -> & Hb) s Hs Htrim Hlen.
    destruct (POST_readable b Hb) as (text & r & p & v & n & _ & Ht & ->).
    rewrite Ht in Hs. apply asString_Some in Hs. subst text.
    now apply validate_accepts.
  - intros Hno. destruct body as [b|]; [|reflexivity].
    destruct b; try reflexivity; elim Hno; eexists; (split; [reflexivity|discriminate]).
Qed.

Definition longText : string := JsString.repeat "a" 5001.

Lemma POST_validation_witness :
  let empty := Some (JObj [("text", JStr "")]) in
  let long := Some (JObj [("text", JStr longText)]) in
  let fine := Some (JObj [("text", JStr "Hello world"); ("rate", JNum 2)]) in
  errorOf (POST empty) = Some textRequired /\
  errorOf (POST long) = Some textTooLong /\
  status (POST fine) = 200 /\
  status (POST None) = 500.
Proof.
  assert (Hread : forall fields, readable (Some (JObj fields))).
  { intros fields. eexists. split; [reflexivity | discriminate]. }
  split.
  { destruct (POST_validation (Some (JObj [("text", JStr "")]))) as (H & _).
    rewrite H; [reflexivity | apply Hread |].
    right. exists "". split; reflexivity. }
  split.
  { destruct (POST_validation (Some (JObj [("text", JStr longText)])))
      as (_ & H & _).
    rewrite (H (Hread _) longText); [reflexivity | reflexivity | | ];
      vm_compute; [discriminate | lia]. }
  split.
  { destruct (POST_validation
                (Some (JObj [("text", JStr "Hello world"); ("rate", JNum 2)])))
      as (_ & _ & H & _).
    apply (H (Hread _) "Hello world"); [reflexivity | | ];
      vm_compute; [discriminate | lia]. }
  destruct (POST_validation None) as (_ & _ & _ & H).
  apply H. intros (b & Hb & _). discriminate Hb.
Defined.

End EndpointFacts.

(** ** Recorded export *)

Module RecordingFacts.
Import Estimator EstimatorFacts TextExport Recording.

Local Open Scope Q_scope.

(** The recorder was started, and its promise is settled whenever the
    recorder is no longer recording. *)
Definition started (s : Session) : Prop :=
  recordingStarted s = true /\
  (recorder s = Inactive -> outcome s <> Pending).

(** The safety timer is still pending and its time [bound] has not come. *)
Definition armed (bound : Q) (s : Session) : Prop :=
  clock s < bound /\
  exists tm, In tm (timers s) /\ callback tm = SafetyStop /\ due tm == bound.

Lemma settle_settled (o : Outcome) (s : Session) :
  o <> Pending -> outcome (settle o s) <> Pending.
Proof. intros Ho. unfold settle; simpl. now destruct (outcome s). Qed.

Lemma stopIfRecording_started (s : Session) :
  started s -> started (stopIfRecording s).
Proof.
  intros [Hs Hout]. unfold stopIfRecording. rewrite Hs.
  destruct (recorder s) eqn:Hr.
  { split; [exact Hs|]. intros _. tauto. }
  split; [exact Hs|]. intros _. apply settle_settled. discriminate.
Qed.

Lemma stopIfRecording_inactive (s : Session) :
  recordingStarted s = true -> recorder (stopIfRecording s) = Inactive.
Proof.
  intros Hs. unfold stopIfRecording. rewrite Hs.
  now destruct (recorder s) eqn:Hr.
Qed.

Lemma stopIfRecording_frame (s : Session) :
  clock (stopIfRecording s) = clock s /\
  timers (stopIfRecording s) = timers s.
Proof.
  unfold stopIfRecording.
  destruct (recordingStarted s), (recorder s); split; reflexivity.
Qed.

Lemma stopIfRecording_stays (s : Session) :
  recorder s = Inactive -> recorder (stopIfRecording s) = Inactive.
Proof.
  intros H. unfold stopIfRecording. rewrite H.
  now destruct (recordingStarted s).
Qed.

Lemma runCallback_started (cb : Callback) (s : Session) :
  started s -> started (runCallback cb s).
Proof.
  destruct cb; simpl; try apply stopIfRecording_started.
  intros H; exact H.
Qed.

Lemma runCallback_frame (cb : Callback) (s : Session) :
  clock (runCallback cb s) = clock s /\
  timers (runCallback cb s) = timers s.
Proof.
  destruct cb; simpl; try apply stopIfRecording_frame. split; reflexivity.
Qed.

Lemma runCallback_stays (cb : Callback) (s : Session) :
  recorder s = Inactive -> recorder (runCallback cb s) = Inactive.
Proof.
  destruct cb; simpl; try apply stopIfRecording_stays. intros H; exact H.
Qed.

(** Running a batch of due timers. *)
Definition runAll (ready : list Timer) (s : Session) : Session :=
  fold_left (fun s t => runCallback (callback t) s) ready s.

Lemma runAll_started (ready : list Timer) (s : Session) :
  started s -> started (runAll ready s).
Proof.
  revert s. induction ready as [|t ready IH]; intros s H; simpl; [exact H|].
  apply IH. now apply runCallback_started.
Qed.

Lemma runAll_frame (ready : list Timer) (s : Session) :
  clock (runAll ready s) = clock s /\ timers (runAll ready s) = timers s.
Proof.
  revert s. induction ready as [|t ready IH]; intros s; simpl.
  - split; reflexivity.
  - destruct (IH (runCallback (callback t) s)) as [Hc Ht].
    destruct (runCallback_frame (callback t) s) as [Hc' Ht'].
    split; congruence.
Qed.

Lemma runAll_stays (ready : list Timer) (s : Session) :
  recorder s = Inactive -> recorder (runAll ready s) = Inactive.
Proof.
  revert s. induction ready as [|t ready IH]; intros s H; simpl; [exact H|].
  apply IH. now apply runCallback_stays.
Qed.

(** A batch that contains the safety timer leaves the recorder stopped. *)
Lemma runAll_safety (ready : list Timer) (s : Session) (tm : Timer) :
  recordingStarted s = true -> In tm ready -> callback tm = SafetyStop ->
  recorder (runAll ready s) = Inactive.
Proof.
  revert s. induction ready as [|t ready IH]; intros s Hs Hin Hcb; simpl.
  - destruct Hin.
  - destruct Hin as [->|Hin].
    + apply runAll_stays. rewrite Hcb. simpl.
      now apply stopIfRecording_inactive.
    + apply (IH _ ) ; try assumption.
      destruct (callback t); simpl; try exact Hs;
        unfold stopIfRecording; rewrite Hs; now destruct (recorder s).
Qed.

Lemma insertByDue_In (t x : Timer) (ts : list Timer) :
  In x (insertByDue t ts) <-> x = t \/ In x ts.
Proof.
  induction ts as [|t' ts IH]; simpl.
  - intuition.
  - destruct (Qle_bool (due t') (due t)); simpl; [rewrite IH|]; intuition.
Qed.

Lemma sortByDue_In (x : Timer) (ts : list Timer) :
  In x (sortByDue ts) <-> In x ts.
Proof.
  unfold sortByDue.
  assert (H : forall acc, In x (fold_left (fun acc t => insertByDue t acc) ts acc)
                          <-> In x acc \/ In x ts).
  { induction ts as [|t ts IH]; intros acc; simpl; [intuition|].
    rewrite IH, insertByDue_In. intuition. }
  rewrite H. simpl. intuition.
Qed.

Lemma step_started (e : Event) (s : Session) : started s -> started (step e s).
Proof.
  intros H. destruct e as [t| | | |]; simpl.
  - unfold elapse. apply runAll_started. exact H.
  - destruct (spoken s); exact H.
  - destruct (spoken s); [now apply stopIfRecording_started | exact H].
  - destruct H as [Hs Hout]. destruct (recorder s) eqn:Hr.
    + split; [exact Hs | intros _; tauto].
    + split; [exact Hs|]. intros _. apply settle_settled. discriminate.
  - destruct H as [Hs Hout]. destruct (recorder s) eqn:Hr.
    + split; [exact Hs | intros _; tauto].
    + split; [exact Hs|]. intros _. apply settle_settled. discriminate.
Qed.

Lemma armed_frame (bound : Q) (s s' : Session) :
  clock s' = clock s -> timers s' = timers s -> armed bound s -> armed bound s'.
Proof. intros Hc Ht [Hlt Htm]. unfold armed. now rewrite Hc, Ht. Qed.

(** Once the clock has reached the time of the safety timer the recorder is
    stopped; until then either it is stopped already or the timer is still
    pending. *)
Lemma step_safe (bound : Q) (e : Event) (s : Session) :
  started s ->
  recorder s = Inactive \/ armed bound s ->
  recorder (step e s) = Inactive \/ armed bound (step e s).
Proof.
  intros [Hs _] Hsafe. destruct e as [t| | | |]; simpl.
  - pose (now := Qmax (clock s) t).
    pose (s' := {| clock := now; recorder := recorder s;
                   recordingStarted := recordingStarted s;
                   timers := filter (fun t0 => negb (isDue now t0)) (timers s);
                   spoken := spoken s; tracksLive := tracksLive s;
                   outcome := outcome s |}).
    change (elapse t s)
      with (runAll (sortByDue (filter (isDue now) (timers s))) s').
    destruct Hsafe as [Hin|[Hlt (tm & Htm & Hcb & Hdue)]].
    + left. now apply runAll_stays.
    + destruct (Qlt_le_dec now bound) as [Hnow|Hnow].
      * right.
        destruct (runAll_frame (sortByDue (filter (isDue now) (timers s))) s')
          as [Hc Ht].
        unfold armed. rewrite Hc, Ht. simpl. split; [exact Hnow|].
        exists tm. repeat split; try assumption.
        apply filter_In. split; [exact Htm|].
        unfold isDue. destruct (Qle_bool (due tm) now) eqn:E; [|reflexivity].
        apply Qle_bool_iff in E. rewrite Hdue in E.
        exfalso. exact (Qlt_not_le _ _ Hnow E).
      * left. apply (runAll_safety _ s' tm); [exact Hs | | exact Hcb].
        apply sortByDue_In, filter_In. split; [exact Htm|].
        unfold isDue. apply Qle_bool_iff. now rewrite Hdue.
  - destruct (spoken s); [|exact Hsafe].
    destruct Hsafe as [Hin|[Hlt (tm & Htm & Hcb & Hdue)]]; [now left|].
    right. split; [exact Hlt|]. exists tm. repeat split; try assumption.
    simpl. apply in_or_app. now left.
  - destruct (spoken s); [|exact Hsafe].
    destruct Hsafe as [Hin|Harmed].
    + left. now apply stopIfRecording_stays.
    + right. destruct (stopIfRecording_frame s) as [Hc Ht].
      now apply (armed_frame bound s).
  - destruct (recorder s) eqn:Hr; [now left | now left].
  - destruct (recorder s) eqn:Hr; [now left | now left].
Qed.

Lemma run_safe (bound : Q) (evs : list Event) (s : Session) :
  started s ->
  recorder s = Inactive \/ armed bound s ->
  started (run evs s) /\
  (recorder (run evs s) = Inactive \/ armed bound (run evs s)).
Proof.
  revert s. induction evs as [|e evs IH]; intros s Hst Hsafe; simpl.
  - now split.
  - apply IH; [now apply step_started | now apply step_safe].
Qed.

Lemma safetyDelay_pos (text : string) (settings : VoiceSettings) :
  0 < rate settings -> 0 < safetyDelay text settings.
Proof.
  intros Hr. unfold safetyDelay.
  apply Qmult_lt_0_compat; [|reflexivity].
  apply Qlt_trans with (estimateDuration text (rate settings)).
  - now apply estimateDuration_pos.
  - rewrite <- (Qplus_0_r (estimateDuration text (rate settings))) at 1.
    apply Qplus_lt_r. reflexivity.
Qed.

(** A granted capture with an audio track: the recorder runs, nothing is
    settled, and the safety timer is set at the safety delay. *)
Lemma recording_begins (text : string) (settings : VoiceSettings) (n : nat) :
  0 < rate settings ->
  let s := createAudioBlobWithRecording text settings (Granted (S n)) in
  recorder s = Recording /\ clock s == 0 /\ outcome s = Pending /\
  started s /\ armed (safetyDelay text settings) s.
Proof.
  intros Hr s. pose proof (safetyDelay_pos text settings Hr) as Hpos.
  repeat split; try reflexivity; try discriminate.
  - exact Hpos.
  - exists {| due := 0 + Qmax (safetyDelay text settings) 0;
              callback := SafetyStop |}.
    repeat split.
    + simpl. right. left. reflexivity.
    + simpl. rewrite Qplus_0_l. apply Q.max_l. now apply Qlt_le_weak.
Qed.

(** Without a capture, or without an audio track in it, the export is
    rejected at once and nothing is recorded. *)
Lemma capture_refused (text : string) (settings : VoiceSettings)
    (reason : string) :
  outcome (createAudioBlobWithRecording text settings (Denied reason))
    = Rejected reason /\
  outcome (createAudioBlobWithRecording text settings (Granted 0))
    = Rejected "No audio track available from screen capture" /\
  recorder (createAudioBlobWithRecording text settings (Denied reason))
    = Inactive /\
  recorder (createAudioBlobWithRecording text settings (Granted 0))
    = Inactive.
Proof. repeat split. Qed.

(** A session that is over stays over. *)
Definition over (s : Session) : Prop :=
  recorder s = Inactive /\ outcome s <> Pending.

Lemma stopIfRecording_idle (s : Session) :
  recorder s = Inactive -> stopIfRecording s = s.
Proof.
  intros H. unfold stopIfRecording. rewrite H.
  now destruct (recordingStarted s).
Qed.

Lemma runCallback_over (cb : Callback) (s : Session) :
  over s -> over (runCallback cb s).
Proof.
  intros [Hr Ho]. destruct cb; simpl.
  - split; [exact Hr | exact Ho].
  - rewrite (stopIfRecording_idle s Hr). now split.
  - rewrite (stopIfRecording_idle s Hr). now split.
Qed.

Lemma runAll_over (ready : list Timer) (s : Session) :
  over s -> over (runAll ready s).
Proof.
  revert s. induction ready as [|t ready IH]; intros s H; simpl; [exact H|].
  apply IH. now apply runCallback_over.
Qed.

Lemma step_over (e : Event) (s : Session) : over s -> over (step e s).
Proof.
  intros H. destruct e as [t| | | |]; simpl.
  - unfold elapse. apply runAll_over. exact H.
  - destruct (spoken s); exact H.
  - destruct (spoken s); [|exact H].
    rewrite (stopIfRecording_idle s (proj1 H)). exact H.
  - rewrite (proj1 H). exact H.
  - rewrite (proj1 H). exact H.
Qed.

Lemma run_over (evs : list Event) (s : Session) : over s -> over (run evs s).
Proof.
  revert s. induction evs as [|e evs IH]; intros s H; simpl; [exact H|].
  apply IH. now apply step_over.
Qed.

(** C8: at a positive rate, whatever [getDisplayMedia] answered and whatever
    the speech engine and the recorder report afterwards (and also when the
    engine reports neither an end nor an error), once the clock shows
    (estimateDuration(text, rate) + 10) * 1000 milliseconds since the
    recorder was started, the recorder is stopped and the promise of the
    export is settled. *)
Theorem recording_stops_by_safety_timeout
    (text : string) (settings : VoiceSettings) (capture : Capture)
    (evs : list Event) :
  0 < rate settings ->
  let s := run evs (createAudioBlobWithRecording text settings capture) in
  (estimateDuration text (rate settings) + 10) * 1000 <= clock s ->
  recorder s = Inactive /\ outcome s <> Pending.
Proof.
  intros Hr s Hclock.
  destruct capture as [reason|[|n]].
  - apply run_over. split; [reflexivity | discriminate].
  - apply run_over. split; [reflexivity | discriminate].
  - destruct (recording_begins text settings n Hr)
      as (_ & _ & _ & Hst & Harmed).
    destruct (run_safe (safetyDelay text settings) evs _ Hst (or_intror Harmed))
      as [[Hs Hout] Hsafe].
    fold s in Hs, Hout, Hsafe.
    assert (Hin : recorder s = Inactive).
    { destruct Hsafe as [Hin|[Hlt _]]; [exact Hin|].
      exfalso. exact (Qlt_not_le _ _ Hlt Hclock). }
    split; [exact Hin | now apply Hout].
Qed.

(** "Hello world" at rate 1, with an engine that never reports anything:
    twenty seconds after the start the recorder is stopped and the promise
    resolved. *)
Lemma recording_stops_by_safety_timeout_witness :
  let s := run [Elapse 20000]
             (createAudioBlobWithRecording "Hello world" initialSettings
                (Granted 1)) in
  0 < rate initialSettings /\
  (estimateDuration "Hello world" (rate initialSettings) + 10) * 1000 <= clock s /\
  recorder s = Inactive /\ outcome s <> Pending.
Proof.
  split; [reflexivity|].
  split; [vm_compute; discriminate|].
  apply (recording_stops_by_safety_timeout "Hello world" initialSettings
           (Granted 1) [Elapse 20000]); [reflexivity | vm_compute; discriminate].
Defined.

End RecordingFacts.

(** * Further properties *)

From Stdlib Require Import Permutation.

(** ** Trimming and validity of a text *)

Module TrimFacts.
Import JsString JsStringOps TextExport.

Local Open Scope nat_scope.

Lemma trimStart_allWhitespace (s : string) :
  allWhitespace s = true -> trimStart s = EmptyString.
Proof.
  induction s as [|c rest IH]; simpl; [reflexivity|].
  intros H. apply andb_true_iff in H as [Hc Hrest]. rewrite Hc. now apply IH.
Qed.

(** [trimStart] cuts a prefix of whitespace and stops at the first other
    code unit. *)
Lemma trimStart_split (s : string) :
  exists before,
    s = (before ++ trimStart s)%string /\ allWhitespace before = true /\
    forall c, first (trimStart s) = Some c -> isWhitespace c = false.
Proof.
  induction s as [|c rest (before & Heq & Hws & Hfirst)].
  - exists EmptyString. repeat split. intros c H. discriminate H.
  - simpl. destruct (isWhitespace c) eqn:Hc.
    + exists (String c before). simpl. rewrite Hc, Hws, <- Heq.
      repeat split. exact Hfirst.
    + exists EmptyString. repeat split. simpl. intros c' H.
      injection H as <-. exact Hc.
Qed.

(** [trimEnd] cuts a suffix of whitespace and stops at the last other code
    unit. *)
Lemma trimEnd_split (s : string) :
  exists after,
    s = (trimEnd s ++ after)%string /\ allWhitespace after = true /\
    forall c, last (trimEnd s) = Some c -> isWhitespace c = false.
Proof.
  induction s as [|c rest (after & Heq & Hws & Hlast)].
  - exists EmptyString. repeat split. intros c H. discriminate H.
  - simpl. destruct (trimEnd rest) as [|c' kept] eqn:Hkept.
    + simpl in Heq. subst after.
      destruct (isWhitespace c) eqn:Hc; simpl.
      * exists (String c rest). simpl. rewrite Hc, Hws. repeat split.
        intros c0 H. discriminate H.
      * exists rest. repeat split; [exact Hws|].
        intros c0 H. injection H as <-. exact Hc.
    + rewrite andb_false_r. exists after. simpl in *.
      rewrite Heq at 1. repeat split; assumption.
Qed.

Lemma trimEnd_first (s : string) (c : ascii) :
  first (trimEnd s) = Some c -> first s = Some c.
Proof.
  destruct s as [|c0 rest]; simpl; [intros H; discriminate H|].
  destruct (isWhitespace c0 && (trimEnd rest =? EmptyString)%string);
    simpl; [intros H; discriminate H | intros H; exact H].
Qed.

Lemma trimStart_fixed (s : string) :
  (forall c, first s = Some c -> isWhitespace c = false) -> trimStart s = s.
Proof.
  destruct s as [|c rest]; simpl; [reflexivity|].
  intros H. now rewrite (H c eq_refl).
Qed.

Lemma trimEnd_fixed (s : string) :
  (forall c, last s = Some c -> isWhitespace c = false) -> trimEnd s = s.
Proof.
  induction s as [|c rest IH]; simpl; [reflexivity|]. intros H.
  destruct rest as [|c' rest'].
  - simpl. now rewrite (H c eq_refl).
  - rewrite IH by exact H. rewrite andb_false_r. reflexivity.
Qed.

Lemma allWhitespace_app (a b : string) :
  allWhitespace (a ++ b) = allWhitespace a && allWhitespace b.
Proof.
  induction a as [|c a IH]; simpl; [reflexivity|].
  now rewrite IH, andb_assoc.
Qed.

Lemma string_length_app (a b : string) :
  String.length (a ++ b) = String.length a + String.length b.
Proof. induction a as [|c a IH]; simpl; [reflexivity | now rewrite IH]. Qed.

(** [trim] removes whitespace only, and all of it at both ends: the text is
    a run of whitespace, the trimmed text, and a run of whitespace; the
    trimmed text neither starts nor ends with whitespace, and trimming it
    again changes nothing. *)
Lemma trim_spec (s : string) :
  (exists before after,
     s = (before ++ trim s ++ after)%string /\
     allWhitespace before = true /\ allWhitespace after = true) /\
  (forall c, first (trim s) = Some c -> isWhitespace c = false) /\
  (forall c, last (trim s) = Some c -> isWhitespace c = false) /\
  trim (trim s) = trim s /\
  String.length (trim s) <= String.length s.
Proof.
  destruct (trimStart_split s) as (before & Hs & Hbefore & Hfirst).
  destruct (trimEnd_split (trimStart s)) as (after & Ht & Hafter & Hlast).
  assert (Hfirst' : forall c, first (trim s) = Some c -> isWhitespace c = false).
  { intros c H. apply Hfirst. now apply trimEnd_first. }
  assert (Heq : s = (before ++ trim s ++ after)%string).
  { unfold trim. now rewrite <- Ht. }
  split; [|split; [exact Hfirst'|split; [exact Hlast|split]]].
  - exists before, after. now repeat split.
  - unfold trim at 1. rewrite (trimStart_fixed _ Hfirst').
    apply trimEnd_fixed. exact Hlast.
  - pose proof (f_equal String.length Heq) as Hlen.
    rewrite !string_length_app in Hlen. lia.
Qed.

(** The trimmed text is empty exactly on the texts of whitespace only. *)
Lemma trim_empty_iff (text : string) :
  String.length (trim text) = 0 <-> allWhitespace text = true.
Proof.
  split.
  - intros Hlen. destruct (trim_spec text) as ((b & a & Heq & Hb & Ha) & _).
    destruct (trim text); [|discriminate Hlen].
    rewrite Heq, !allWhitespace_app, Hb, Ha. reflexivity.
  - intros Hws. unfold trim. now rewrite trimStart_allWhitespace.
Qed.

Lemma isTextValid_allWhitespace (text : string) :
  isTextValid text = negb (allWhitespace text).
Proof.
  pose proof (trim_empty_iff text) as H.
  unfold isTextValid. destruct (allWhitespace text).
  - destruct H as [_ H]. now rewrite H.
  - simpl. apply Nat.ltb_lt.
    destruct (String.length (trim text)); [|lia].
    destruct H as [H _]. discriminate (H eq_refl).
Qed.

End TrimFacts.

(** ** Words of a text *)

Module WordFacts.
Import JsString JsStringOps JsStringFacts TrimFacts Estimator TextExport App.

Local Open Scope nat_scope.

(** No code unit of [s] is whitespace. *)
Fixpoint noWhitespace (s : string) : bool :=
  match s with
  | EmptyString => true
  | String c rest => negb (isWhitespace c) && noWhitespace rest
  end.

(** Every token but the last is not empty. *)
Fixpoint innerOk (l : list string) : Prop :=
  match l with
  | [] => True
  | x :: rest =>
      match rest with
      | [] => True
      | _ :: _ => x <> EmptyString /\ innerOk rest
      end
  end.

Definition isEmpty (s : string) : bool := (String.length s =? 0).

Definition countEmpty (l : list string) : nat :=
  List.length (filter isEmpty l).

Lemma countEmpty_cons (x : string) (l : list string) :
  countEmpty (x :: l) = (if isEmpty x then 1 else 0) + countEmpty l.
Proof. unfold countEmpty. simpl. now destruct (isEmpty x). Qed.

Lemma app_nonempty (tok : string) (c : ascii) :
  (tok ++ String c EmptyString)%string <> EmptyString.
Proof. destruct tok; discriminate. Qed.

Lemma noWhitespace_snoc (tok : string) (c : ascii) :
  noWhitespace tok = true -> isWhitespace c = false ->
  noWhitespace (tok ++ String c EmptyString) = true.
Proof.
  intros Ht Hc. induction tok as [|a tok IH]; simpl in *.
  - now rewrite Hc.
  - apply andb_true_iff in Ht as [Ha Ht]. rewrite Ha. now apply IH.
Qed.

Lemma split_go_noWhitespace (tok : string) (g : bool) (s : string) :
  noWhitespace tok = true ->
  Forall (fun w => noWhitespace w = true) (split_go tok g s).
Proof.
  revert tok g. induction s as [|c rest IH]; intros tok g Ht; simpl.
  - now constructor.
  - destruct (isWhitespace c) eqn:Hc.
    + destruct g; [now apply IH|].
      constructor; [exact Ht | now apply IH].
    + apply IH. now apply noWhitespace_snoc.
Qed.

Lemma split_go_cons (tok : string) (g : bool) (s : string) :
  exists w rest, split_go tok g s = w :: rest.
Proof.
  revert tok g. induction s as [|c s IH]; intros tok g; simpl.
  - now eexists _, _.
  - destruct (isWhitespace c); [destruct g|]; auto. now eexists _, _.
Qed.

Lemma innerOk_cons (x : string) (l : list string) :
  x <> EmptyString -> innerOk l -> innerOk (x :: l).
Proof. intros Hx Hl. destruct l; simpl; auto. Qed.

(** After a separator, or with a token under way, every token but the last
    is not empty. *)
Lemma split_go_innerOk (tok : string) (g : bool) (s : string) :
  g = true \/ tok <> EmptyString -> innerOk (split_go tok g s).
Proof.
  revert tok g. induction s as [|c rest IH]; intros tok g H; simpl; [exact I|].
  destruct (isWhitespace c).
  - destruct g.
    + apply IH. now left.
    + destruct H as [H|H]; [discriminate H|].
      apply innerOk_cons; [exact H | apply IH; now left].
  - apply IH. right. apply app_nonempty.
Qed.

Lemma split_go_tail_innerOk (tok : string) (g : bool) (s : string) :
  innerOk (tl (split_go tok g s)).
Proof.
  revert tok g. induction s as [|c rest IH]; intros tok g; simpl; [exact I|].
  destruct (isWhitespace c).
  - destruct g; [apply IH|]. simpl. apply split_go_innerOk. now left.
  - apply IH.
Qed.

(** At most one token is empty once a token is under way or a separator was
    seen, and at most two in all. *)
Lemma split_go_countEmpty (tok : string) (g : bool) (s : string) :
  countEmpty (split_go tok g s) <= 2 /\
  (g = true \/ tok <> EmptyString -> countEmpty (split_go tok g s) <= 1).
Proof.
  revert tok g. induction s as [|c rest IH]; intros tok g; simpl.
  - unfold countEmpty; simpl. destruct (isEmpty tok); simpl; split; intros; lia.
  - destruct (isWhitespace c).
    + destruct g.
      * split; [apply IH | intros _; apply IH; now left].
      * destruct (IH EmptyString true) as [_ H1].
        specialize (H1 (or_introl eq_refl)).
        unfold countEmpty in *; simpl.
        destruct (isEmpty tok) eqn:Ht; simpl; split; intros; try lia.
        destruct H as [H|H]; [discriminate H|].
        destruct tok; [now elim H | discriminate Ht].
    + destruct (IH (tok ++ String c EmptyString)%string false) as [_ H1].
      specialize (H1 (or_intror (app_nonempty tok c))).
      split; intros; lia.
Qed.

(** No token is empty when the text ends with a code unit that is not
    whitespace and starts with a token under way, after a separator, or
    with such a code unit. *)
Lemma split_go_no_empty (tok : string) (g : bool) (s : string) :
  (exists c, last s = Some c /\ isWhitespace c = false) ->
  g = true \/ tok <> EmptyString \/
    (exists c, first s = Some c /\ isWhitespace c = false) ->
  countEmpty (split_go tok g s) = 0.
Proof.
  revert tok g. induction s as [|c rest IH]; intros tok g (cl & Hl & Hcl) H.
  - discriminate Hl.
  - simpl. destruct rest as [|c' rest'].
    + simpl in Hl. injection Hl as <-. rewrite Hcl. simpl.
      unfold countEmpty; simpl.
      destruct (tok ++ String c EmptyString)%string eqn:E; [|reflexivity].
      now elim (app_nonempty tok c).
    + assert (Hlast : exists c0, last (String c' rest') = Some c0
                                 /\ isWhitespace c0 = false)
        by (exists cl; split; assumption).
      destruct (isWhitespace c) eqn:Hc.
      * destruct g.
        -- apply IH; [exact Hlast | now left].
        -- assert (Htok : tok <> EmptyString).
           { destruct H as [H|[H|(c0 & H0 & H1)]];
               [discriminate H | exact H |].
             simpl in H0. injection H0 as <-. congruence. }
           rewrite countEmpty_cons.
           destruct tok as [|a tok]; [now elim Htok|].
           change (isEmpty (String a tok)) with false. cbv iota.
           rewrite Nat.add_0_l.
           apply IH; [exact Hlast | now left].
      * apply IH; [exact Hlast|]. right; left. apply app_nonempty.
Qed.

Lemma filter_split (l : list string) :
  List.length l =
  List.length (filter (fun word => 0 <? String.length word) l) + countEmpty l.
Proof.
  unfold countEmpty, isEmpty. induction l as [|w l IH]; simpl; [reflexivity|].
  destruct (String.length w); simpl; lia.
Qed.

(** A token under way, or a code unit that is not whitespace further on,
    gives a token that is not empty. *)
Lemma split_go_has_word (tok : string) (g : bool) (s : string) :
  tok <> EmptyString \/ allWhitespace s = false ->
  1 <= List.length
         (filter (fun word => 0 <? String.length word) (split_go tok g s)).
Proof.
  revert tok g. induction s as [|c rest IH]; intros tok g H.
  - destruct H as [H|H]; [|discriminate H].
    destruct tok as [|a tok]; [now elim H|]. simpl. lia.
  - cbn [split_go]. destruct (isWhitespace c) eqn:Hc.
    + assert (H' : tok <> EmptyString \/ allWhitespace rest = false).
      { destruct H as [H|H]; [now left|]. right.
        simpl in H. now rewrite Hc in H. }
      destruct g; [now apply IH|].
      destruct tok as [|a tok].
      * cbn [filter String.length Nat.ltb Nat.leb]. apply IH.
        destruct H' as [H'|H']; [now elim H' | now right].
      * simpl. lia.
    + apply IH. left. apply app_nonempty.
Qed.

(** X1: a text is valid for playing and exporting exactly when it has a
    code unit that is not whitespace, that is, when its trimmed text is not
    empty.  On a valid text the displayed word count is at least 1.  On an
    invalid text the displayed word count is 0, while the estimator splits
    the text into one empty word (the empty text) or two (any other) and
    so estimates a positive duration at every positive rate. *)
Theorem isTextValid_iff (text : string) :
  isTextValid text = negb (allWhitespace text) /\
  (String.length (trim text) = 0 <-> allWhitespace text = true) /\
  (isTextValid text = true ->
   1 <= displayedWordCount text /\ 1 <= wordCount text) /\
  (isTextValid text = false ->
   displayedWordCount text = 0 /\
   split_ws text =
     match text with
     | EmptyString => [EmptyString]
     | _ => [EmptyString; EmptyString]
     end /\
   wordCount text = match text with EmptyString => 1 | _ => 2 end /\
   forall r : Q, (0 < r)%Q ->
     (estimateDuration text r ==
      match text with
      | EmptyString => 60 / (155 * r)
      | _ => 120 / (155 * r)
      end)%Q /\ (0 < estimateDuration text r)%Q).
Proof.
  pose proof (isTextValid_allWhitespace text) as Hvalid.
  split; [exact Hvalid|]. split; [apply trim_empty_iff|].
  rewrite Hvalid. split.
  - intros H. apply negb_true_iff in H.
    assert (Hd : 1 <= displayedWordCount text).
    { unfold displayedWordCount, split_ws. apply split_go_has_word.
      now right. }
    split; [exact Hd|].
    unfold wordCount, displayedWordCount in *.
    pose proof (filter_split (split_ws text)). lia.
  - intros H. apply negb_false_iff in H.
    split; [now apply EstimatorFacts.displayedWordCount_allWhitespace|].
    split.
    { rewrite (split_ws_allWhitespace _ H). now destruct text. }
    split; [now apply EstimatorFacts.wordCount_allWhitespace|].
    intros r Hr.
    destruct (EstimatorFacts.estimateDuration_allWhitespace text r H Hr)
      as [Hpos Heq].
    split; [exact Heq | exact Hpos].
Qed.

Lemma isTextValid_iff_witness :
  isTextValid " a b" = true /\ displayedWordCount " a b" = 2 /\
  isTextValid "  " = false /\ displayedWordCount "  " = 0 /\
  wordCount "  " = 2 /\
  (estimateDuration "  " 1 == 24 # 31)%Q.
Proof.
  split; [reflexivity|]. split; [reflexivity|]. split; [reflexivity|].
  destruct (isTextValid_iff "  ") as (_ & _ & _ & H).
  destruct (H eq_refl) as (Hd & _ & Hw & Hest).
  split; [exact Hd|]. split; [exact Hw|].
  destruct (Hest 1%Q eq_refl) as [Heq _].
  rewrite Heq. reflexivity.
Defined.

(** X2: the word count of the estimator is the displayed word count plus
    the empty tokens, of which there are at most two; the two counts agree
    on every text that is not empty and has no whitespace at either end
    (such as the trimmed text handed to [speak]). *)
Theorem wordCount_vs_displayed (text : string) :
  displayedWordCount text <= wordCount text /\
  wordCount text <= displayedWordCount text + 2 /\
  (text <> EmptyString -> trim text = text ->
   wordCount text = displayedWordCount text).
Proof.
  unfold wordCount, displayedWordCount.
  pose proof (filter_split (split_ws text)) as Hsplit.
  destruct (split_go_countEmpty EmptyString false text) as [H2 _].
  fold (split_ws text) in H2.
  split; [lia|]. split; [lia|].
  intros Hne Htrim. destruct (trim_spec text) as (_ & Hfirst & Hlast & _).
  rewrite Htrim in Hfirst, Hlast.
  assert (H0 : countEmpty (split_ws text) = 0).
  { apply split_go_no_empty.
    - destruct (last text) as [c|] eqn:E.
      + exists c. split; [reflexivity | now apply Hlast].
      + exfalso. clear -E Hne. induction text as [|c t IH]; [now apply Hne|].
        simpl in E. destruct t; [discriminate E|]. apply IH; [discriminate | exact E].
    - right; right. destruct text as [|c t]; [now elim Hne|].
      exists c. split; [reflexivity | now apply Hfirst]. }
  lia.
Qed.

Lemma wordCount_vs_displayed_witness :
  " a b" <> EmptyString /\ wordCount " a b" = 3 /\ displayedWordCount " a b" = 2 /\
  "a b" <> EmptyString /\ trim "a b" = "a b" /\
  wordCount "a b" = displayedWordCount "a b".
Proof.
  split; [discriminate|]. split; [reflexivity|]. split; [reflexivity|].
  split; [discriminate|]. split; [reflexivity|].
  destruct (wordCount_vs_displayed "a b") as (_ & _ & H).
  apply H; [discriminate | reflexivity].
Defined.

Lemma string_app_nil_r (a : string) : (a ++ EmptyString)%string = a.
Proof. induction a as [|x a IH]; simpl; [reflexivity | now rewrite IH]. Qed.

Lemma string_app_assoc (a b c : string) :
  ((a ++ b) ++ c)%string = (a ++ b ++ c)%string.
Proof. induction a as [|x a IH]; simpl; [reflexivity | now rewrite IH]. Qed.

(** A run without whitespace extends the token under way. *)
Lemma split_go_run (x : string) (a : ascii) (tok : string) (g : bool)
    (s : string) :
  noWhitespace (String a x) = true ->
  split_go tok g (String a x ++ s) = split_go (tok ++ String a x) false s.
Proof.
  revert a tok g. induction x as [|b x IH]; intros a tok g H; simpl in H;
    apply andb_true_iff in H as [Ha Hx]; apply negb_true_iff in Ha.
  - simpl. now rewrite Ha.
  - change (String a (String b x) ++ s)%string
      with (String a (String b x ++ s)).
    change (split_go tok g (String a (String b x ++ s)))
      with (if isWhitespace a
            then if g then split_go tok true (String b x ++ s)
                 else tok :: split_go EmptyString true (String b x ++ s)
            else split_go (tok ++ String a EmptyString) false (String b x ++ s)).
    rewrite Ha, (IH b _ false Hx), string_app_assoc. reflexivity.
Qed.

Lemma split_go_space (tok s : string) :
  split_go tok false (" " ++ s) = tok :: split_go EmptyString true s.
Proof. reflexivity. Qed.

Lemma join_cons2 (sep x y : string) (l : list string) :
  join sep (x :: y :: l) = (x ++ sep ++ join sep (y :: l))%string.
Proof. reflexivity. Qed.

(** After a separator the joined tokens are read back as they were. *)
Lemma split_go_join_gap (l : list string) :
  l <> [] -> Forall (fun w => noWhitespace w = true) l -> innerOk l ->
  split_go EmptyString true (join " " l) = l.
Proof.
  induction l as [|x l IH]; intros Hne Hws Hin; [now elim Hne|].
  inversion Hws as [|? ? Hx Hl]; subst.
  destruct l as [|y l].
  - destruct x as [|a x]; [reflexivity|]. simpl join.
    rewrite <- (string_app_nil_r (String a x)) at 1.
    now rewrite (split_go_run x a EmptyString true EmptyString Hx).
  - destruct Hin as [Hxne Hin]. rewrite join_cons2.
    destruct x as [|a x]; [now elim Hxne|].
    rewrite (split_go_run x a EmptyString true _ Hx).
    change (EmptyString ++ String a x)%string with (String a x).
    rewrite split_go_space, IH; [reflexivity | discriminate | exact Hl | exact Hin].
Qed.

(** Joining with a space and splitting again gives the tokens back, when
    none contains whitespace and only the first and the last may be
    empty. *)
Lemma split_ws_join (w : string) (rest : list string) :
  Forall (fun w => noWhitespace w = true) (w :: rest) -> innerOk rest ->
  split_ws (join " " (w :: rest)) = w :: rest.
Proof.
  intros Hws Hin. inversion Hws as [|? ? Hw Hrest]; subst.
  unfold split_ws. destruct rest as [|y rest].
  - destruct w as [|a w]; [reflexivity|]. simpl join.
    rewrite <- (string_app_nil_r (String a w)) at 1.
    now rewrite (split_go_run w a EmptyString false EmptyString Hw).
  - rewrite join_cons2. destruct w as [|a w].
    + change (EmptyString ++ " " ++ join " " (y :: rest))%string
        with (" " ++ join " " (y :: rest))%string.
      rewrite split_go_space, split_go_join_gap;
        [reflexivity | discriminate | exact Hrest | exact Hin].
    + rewrite (split_go_run w a EmptyString false _ Hw).
      change (EmptyString ++ String a w)%string with (String a w).
      rewrite split_go_space, split_go_join_gap;
        [reflexivity | discriminate | exact Hrest | exact Hin].
Qed.

Lemma innerOk_firstn (k : nat) (l : list string) :
  innerOk l -> innerOk (firstn k l).
Proof.
  revert k. induction l as [|x l IH]; intros k H; [now destruct k|].
  destruct k as [|k]; [exact I|]. simpl firstn.
  destruct l as [|y l]; [now destruct k|].
  destruct H as [Hx Hl]. destruct k as [|k]; [exact I|].
  apply innerOk_cons; [exact Hx|]. now apply (IH (S k)).
Qed.

Lemma Forall_firstn_keep {A} (P : A -> Prop) (k : nat) (l : list A) :
  Forall P l -> Forall P (firstn k l).
Proof.
  revert k. induction l as [|x l IH]; intros k H; [now destruct k|].
  destruct k as [|k]; [constructor|]. inversion H; subst.
  simpl. constructor; auto.
Qed.

Lemma join_length_cons (sep x : string) (l : list string) :
  String.length (join sep (x :: l)) =
  String.length x +
  match l with
  | [] => 0
  | _ :: _ => String.length sep + String.length (join sep l)
  end.
Proof.
  destruct l as [|y l]; [simpl; lia|].
  rewrite join_cons2, !string_length_app. reflexivity.
Qed.

Lemma join_firstn_length (sep : string) (k : nat) (l : list string) :
  String.length (join sep (firstn k l)) <= String.length (join sep l).
Proof.
  revert k. induction l as [|x l IH]; intros k; [now destruct k|].
  destruct k as [|k]; [simpl; lia|]. simpl firstn.
  rewrite !join_length_cons. specialize (IH k).
  destruct l as [|y l]; [now destruct k|].
  destruct (firstn k (y :: l)); lia.
Qed.

(** The tokens and their separators fit in the text. *)
Lemma split_go_join_length (tok : string) (g : bool) (s : string) :
  String.length (join " " (split_go tok g s))
  <= String.length tok + String.length s.
Proof.
  revert tok g. induction s as [|c rest IH]; intros tok g; simpl split_go.
  - simpl. lia.
  - destruct (isWhitespace c).
    + destruct g.
      * specialize (IH tok true). simpl String.length. lia.
      * rewrite join_length_cons. specialize (IH EmptyString true).
        simpl String.length in *.
        destruct (split_go EmptyString true rest); lia.
    + specialize (IH (tok ++ String c EmptyString)%string false).
      rewrite string_length_app in IH. simpl String.length in *. lia.
Qed.

(** X3: the "Keep First Half" button keeps the first half of the tokens,
    rounded up: splitting its result gives exactly those tokens, so the
    word count of the estimator becomes ceil(n / 2), and the result is never
    longer than the text. *)
Theorem keepFirstHalf_spec (text : string) :
  let half := Nat.div2 (S (wordCount text)) in
  split_ws (keepFirstHalf text) = firstn half (split_ws text) /\
  wordCount (keepFirstHalf text) = half /\
  String.length (keepFirstHalf text) <= String.length text.
Proof.
  intros half. subst half. unfold keepFirstHalf, wordCount.
  pose proof (split_go_noWhitespace EmptyString false text eq_refl) as Hws.
  pose proof (split_go_tail_innerOk EmptyString false text) as Hin.
  pose proof (split_go_join_length EmptyString false text) as Hlen.
  fold (split_ws text) in Hws, Hin, Hlen.
  destruct (split_ws text) as [|w rest] eqn:E.
  { destruct (split_go_cons EmptyString false text) as (w & r & H).
    unfold split_ws in E. congruence. }
  simpl tl in Hin.
  change (List.length (w :: rest)) with (S (List.length rest)).
  assert (Hsplit : split_ws (join " " (firstn (Nat.div2 (S (S (List.length rest)))) (w :: rest)))
                   = firstn (Nat.div2 (S (S (List.length rest)))) (w :: rest)).
  { simpl Nat.div2. simpl firstn. apply split_ws_join.
    - apply (Forall_firstn_keep _ (S (Nat.div2 (List.length rest))) (w :: rest) Hws).
    - now apply innerOk_firstn. }
  split; [exact Hsplit|]. split.
  - rewrite Hsplit. rewrite length_firstn.
    pose proof (Nat.lt_div2 (S (S (List.length rest)))) as Hd.
    change (List.length (w :: rest)) with (S (List.length rest)). lia.
  - pose proof (join_firstn_length " " (Nat.div2 (S (S (List.length rest)))) (w :: rest)).
    change (String.length EmptyString) with 0 in Hlen. lia.
Qed.

End WordFacts.

(** ** Time display *)

Module FormatFacts.
Import JsString JsStringOps JsNumber Format.

Local Open Scope Z_scope.

Example formatTime_examples :
  formatTime 0 = "0:00" /\ formatTime (125 # 2) = "1:02" /\
  formatTime 59 = "0:59" /\ formatTime 60 = "1:00" /\
  formatTime (7265 # 1) = "121:05".
Proof. repeat split. Qed.

(** Two decimal digits. *)
Definition twoDigits (n : Z) : string :=
  String (digitChar (n / 10)) (String (digitChar (n mod 10)) EmptyString).

Lemma padStart_twoDigits_nat (k : nat) :
  (k < 60)%nat ->
  padStart 2 "0" (intToString (Z.of_nat k)) = twoDigits (Z.of_nat k).
Proof.
  intros H. do 60 (destruct k as [|k]; [reflexivity|]). lia.
Qed.

Lemma padStart_twoDigits (n : Z) :
  0 <= n < 60 -> padStart 2 "0" (intToString n) = twoDigits n.
Proof.
  intros H. rewrite <- (Z2Nat.id n) by lia.
  apply padStart_twoDigits_nat. lia.
Qed.

Lemma Qfloor_div_60 (x : Q) : Qfloor (x / 60) = Qfloor x / 60.
Proof.
  destruct x as [n d]. unfold Qdiv, Qmult, Qinv, Qfloor; simpl.
  rewrite Z.mul_1_r, Pos2Z.inj_mul. symmetry. apply Z.div_div; lia.
Qed.

Lemma Qfloor_minus_multiple (x : Q) (k : Z) :
  Qfloor (x - 60 * inject_Z k) = Qfloor x - 60 * k.
Proof.
  destruct x as [n d]. unfold Qminus, Qplus, Qopp, Qmult, inject_Z, Qfloor.
  cbn [Qnum Qden].
  change (1 * 1)%positive with 1%positive. rewrite Pos.mul_1_r.
  rewrite ?Z.mul_1_r.
  rewrite Z.div_add by lia. ring.
Qed.

Lemma truncate_nonneg (x : Q) : (0 <= x)%Q -> truncate x = Qfloor x.
Proof.
  intros H. unfold truncate.
  destruct (Z.ltb_spec (Qnum x) 0) as [Hneg|_]; [|reflexivity].
  exfalso. unfold Qle in H. simpl in H. lia.
Qed.

Lemma div_60_nonneg (x : Q) : (0 <= x)%Q -> (0 <= x / 60)%Q.
Proof.
  intros H. apply Qle_shift_div_l; [reflexivity|]. now rewrite Qmult_0_l.
Qed.

(** X4: for a time that is not negative, [formatTime] shows the whole
    minutes, a colon, and the remaining whole seconds as exactly two digits
    below 60; minutes and seconds add up to the time rounded down. *)
Theorem formatTime_spec (seconds : Q) :
  (0 <= seconds)%Q ->
  exists mins secs,
    formatTime seconds = (intToString mins ++ ":" ++ twoDigits secs)%string /\
    0 <= mins /\ 0 <= secs < 60 /\
    60 * mins + secs = Qfloor seconds.
Proof.
  intros H.
  assert (Hfloor : 0 <= Qfloor seconds).
  { change 0 with (Qfloor 0). now apply Qfloor_resp_le. }
  exists (Qfloor seconds / 60), (Qfloor seconds mod 60).
  pose proof (Z.mod_pos_bound (Qfloor seconds) 60 eq_refl) as Hmod.
  repeat split; try lia.
  - unfold formatTime, remainder.
    rewrite (truncate_nonneg _ (div_60_nonneg _ H)).
    rewrite Qfloor_minus_multiple, !Qfloor_div_60.
    rewrite <- Z.mod_eq by lia.
    now rewrite padStart_twoDigits.
  - apply Z.div_pos; lia.
  - pose proof (Z.div_mod (Qfloor seconds) 60). lia.
Qed.

Lemma formatTime_spec_witness :
  (0 <= 125 # 2)%Q /\
  exists mins secs,
    formatTime (125 # 2) = (intToString mins ++ ":" ++ twoDigits secs)%string /\
    0 <= mins /\ 0 <= secs < 60 /\ 60 * mins + secs = Qfloor (125 # 2).
Proof.
  split; [discriminate|]. apply (formatTime_spec (125 # 2)). discriminate.
Defined.

End FormatFacts.

(** ** Bounds of the estimate *)

Module EstimateBounds.
Import JsString JsStringOps JsStringFacts TrimFacts WordFacts Estimator.

Local Open Scope nat_scope.

Lemma length_le_join (l : list string) :
  List.length l <= String.length (join " " l) + 1.
Proof.
  induction l as [|x l IH]; [simpl; lia|].
  rewrite join_length_cons. destruct l as [|y l]; simpl in *; lia.
Qed.

(** There is at most one token more than there are code units. *)
Lemma wordCount_le_length (text : string) :
  wordCount text <= String.length text + 1.
Proof.
  unfold wordCount.
  pose proof (length_le_join (split_ws text)) as H1.
  pose proof (split_go_join_length EmptyString false text) as H2.
  fold (split_ws text) in H2. simpl in H2. lia.
Qed.

Local Open Scope Q_scope.

Lemma estimateDuration_unfold (text : string) (r : Q) :
  0 < r ->
  estimateDuration text r ==
  inject_Z (Z.of_nat (wordCount text)) * (60 / (155 * r)).
Proof.
  intros Hr. unfold estimateDuration, wordsPerMinute. field.
  intros E. rewrite E in Hr. discriminate Hr.
Qed.



End EstimateBounds.

(** ** Silent placeholder file *)

Module WavFacts.
Import JsString Estimator EstimatorFacts EstimateBounds TextExport Wav.

Local Open Scope Z_scope.
Local Open Scope list_scope.

(** The readers of a [DataView] that match the writers, little-endian. *)
Definition getUint8 (off : nat) (b : Buffer) : Z := nth off b 0.

Definition getUint16 (off : nat) (b : Buffer) : Z :=
  getUint8 off b + 256 * getUint8 (off + 1) b.

Definition getUint32 (off : nat) (b : Buffer) : Z :=
  getUint8 off b + 256 * getUint8 (off + 1) b
  + 65536 * getUint8 (off + 2) b + 16777216 * getUint8 (off + 3) b.

(** The code units of a string, as bytes. *)
Fixpoint codes (s : string) : list Z :=
  match s with
  | EmptyString => []
  | String c rest => Z.of_nat (nat_of_ascii c) :: codes rest
  end.

(** The bytes from [from] up to, not including, [to]. *)
Definition window (from to : nat) (b : Buffer) : list Z :=
  firstn (to - from) (skipn from b).

(** A write that stays inside a buffer does the same inside a longer
    one. *)
Definition Local (f : Buffer -> option Buffer) : Prop :=
  forall h h' t, f h = Some h' -> f (h ++ t) = Some (h' ++ t).

Lemma store_length (off : nat) (v : Z) (b : Buffer) :
  List.length (store off v b) = List.length b.
Proof.
  revert off. induction b as [|x b IH]; intros off; [reflexivity|].
  destruct off; simpl; [reflexivity | now rewrite IH].
Qed.

Lemma store_app_l (off : nat) (v : Z) (h t : Buffer) :
  (off < List.length h)%nat -> store off v (h ++ t) = store off v h ++ t.
Proof.
  revert off. induction h as [|x h IH]; intros off H; simpl in *; [lia|].
  destruct off; [reflexivity|]. rewrite IH by lia. reflexivity.
Qed.

Lemma store_app_r (k : nat) (v : Z) (h t : Buffer) :
  store (List.length h + k) v (h ++ t) = h ++ store k v t.
Proof. induction h as [|x h IH]; simpl; [reflexivity | now rewrite IH]. Qed.

Lemma inRange_app (off len : nat) (h t : Buffer) :
  inRange off len h = true -> inRange off len (h ++ t) = true.
Proof.
  unfold inRange. rewrite length_app, !Nat.leb_le. lia.
Qed.

Lemma inRange_lt (off len k : nat) (h : Buffer) :
  inRange off len h = true -> (k < len)%nat -> (off + k < List.length h)%nat.
Proof. unfold inRange. rewrite Nat.leb_le. lia. Qed.

Lemma local_setUint8 (off : nat) (v : Z) : Local (setUint8 off v).
Proof.
  intros h h' t. unfold setUint8.
  destruct (inRange off 1 h) eqn:E; [|discriminate].
  intros H. injection H as <-. rewrite (inRange_app _ _ _ t E).
  pose proof (inRange_lt off 1 0 h E). rewrite Nat.add_0_r in H.
  rewrite store_app_l by lia. reflexivity.
Qed.

Lemma local_setUint16 (off : nat) (v : Z) : Local (setUint16 off v).
Proof.
  intros h h' t. unfold setUint16.
  destruct (inRange off 2 h) eqn:E; [|discriminate].
  intros H. injection H as <-. rewrite (inRange_app _ _ _ t E).
  pose proof (inRange_lt off 2 0 h E). pose proof (inRange_lt off 2 1 h E).
  rewrite Nat.add_0_r in *.
  rewrite (store_app_l off) by lia.
  rewrite store_app_l by (rewrite store_length; lia). reflexivity.
Qed.

Lemma local_setUint32 (off : nat) (v : Z) : Local (setUint32 off v).
Proof.
  intros h h' t. unfold setUint32.
  destruct (inRange off 4 h) eqn:E; [|discriminate].
  intros H. injection H as <-. rewrite (inRange_app _ _ _ t E).
  pose proof (inRange_lt off 4 0 h E). pose proof (inRange_lt off 4 1 h E).
  pose proof (inRange_lt off 4 2 h E). pose proof (inRange_lt off 4 3 h E).
  rewrite Nat.add_0_r in *.
  rewrite (store_app_l off) by lia.
  rewrite (store_app_l (off + 1)) by (rewrite store_length; lia).
  rewrite (store_app_l (off + 2)) by (rewrite !store_length; lia).
  rewrite (store_app_l (off + 3)) by (rewrite !store_length; lia).
  reflexivity.
Qed.

Lemma local_andThen (f g : Buffer -> option Buffer) :
  Local f -> Local g -> Local (fun b => f b >>= g).
Proof.
  intros Hf Hg h h' t. unfold andThen.
  destruct (f h) as [h1|] eqn:E; [|discriminate].
  intros H. rewrite (Hf _ _ t E). now apply Hg.
Qed.

Lemma local_writeString (str : string) (offset : nat) :
  Local (writeString offset str).
Proof.
  revert offset. induction str as [|c rest IH]; intros offset.
  - intros h h' t H. simpl in *. now injection H as <-.
  - simpl. apply (local_andThen (setUint8 offset _) (writeString (S offset) rest)).
    + apply local_setUint8.
    + apply IH.
Qed.

(** The thirteen writes of the header. *)
Definition writeHeader (bufferSize numSamples : Z) (b : Buffer) : option Buffer :=
  writeString 0 "RIFF" b
  >>= setUint32 4 (bufferSize - 8)
  >>= writeString 8 "WAVE"
  >>= writeString 12 "fmt "
  >>= setUint32 16 16
  >>= setUint32 20 1
  >>= setUint16 22 1
  >>= setUint32 24 44100
  >>= setUint32 28 (44100 * 1 * 2)
  >>= setUint16 32 (1 * 2)
  >>= setUint16 34 16
  >>= writeString 36 "data"
  >>= setUint32 40 (numSamples * 2).

Lemma local_writeHeader (bufferSize numSamples : Z) :
  Local (writeHeader bufferSize numSamples).
Proof.
  unfold writeHeader.
  repeat (apply (local_andThen _ _);
          [|first [ apply local_setUint32 | apply local_setUint16
                  | apply local_writeString ]]).
  apply local_writeString.
Qed.

(** The header as it stands after the writes. *)
Definition header (riff data : Z) : Buffer :=
  [ 82; 73; 70; 70;
    riff mod 256; (riff / 256) mod 256; (riff / 65536) mod 256;
    (riff / 16777216) mod 256;
    87; 65; 86; 69;
    102; 109; 116; 32;
    16; 0; 0; 0;
    1; 0;
    1; 0;
    68; 172; 0; 0;
    136; 88; 1; 0;
    2; 0;
    16; 0;
    100; 97; 116; 97;
    data mod 256; (data / 256) mod 256; (data / 65536) mod 256;
    (data / 16777216) mod 256 ].

Lemma writeHeader_zeros (bufferSize numSamples : Z) :
  writeHeader bufferSize numSamples (List.repeat 0 44)
  = Some (header (bufferSize - 8) (numSamples * 2)).
Proof. reflexivity. Qed.

Lemma repeat_two (m : nat) :
  List.repeat 0 (S (S m)) = [0; 0] ++ List.repeat 0 m.
Proof. reflexivity. Qed.

Lemma fillSilence_S (n i : nat) (b : Buffer) :
  fillSilence (S n) i b = setInt16 (44 + i * 2) 0 b >>= fillSilence n (S i).
Proof. reflexivity. Qed.

(** Writing silence over zeros changes nothing, and never leaves the
    buffer. *)
Lemma fillSilence_zeros (n i : nat) (pre : Buffer) (m : nat) :
  List.length pre = (44 + i * 2)%nat -> (2 * n <= m)%nat ->
  fillSilence n i (pre ++ List.repeat 0 m) = Some (pre ++ List.repeat 0 m).
Proof.
  revert i pre m. induction n as [|n IH]; intros i pre m Hpre Hm; [reflexivity|].
  destruct m as [|[|m]]; try lia.
  rewrite fillSilence_S. unfold setInt16, setUint16.
  assert (Hin : inRange (44 + i * 2) 2 (pre ++ List.repeat 0 (S (S m))) = true).
  { unfold inRange. rewrite length_app, repeat_length, Hpre.
    apply Nat.leb_le. lia. }
  rewrite Hin.
  change (0 mod 256) with 0. change (0 / 256 mod 256) with 0.
  rewrite <- Hpre.
  rewrite <- (Nat.add_0_r (List.length pre)) at 2.
  rewrite !store_app_r. simpl store.
  change (0 :: 0 :: List.repeat 0 m) with (List.repeat 0 (S (S m))).
  unfold andThen. rewrite repeat_two, app_assoc.
  apply IH; [rewrite length_app; simpl; lia | lia].
Qed.

Lemma header_length (riff data : Z) : List.length (header riff data) = 44%nat.
Proof. reflexivity. Qed.

(** The size of the file for a duration of [d] seconds. *)
Definition fileSize (d : Z) : Z := 44 + 88200 * d.

(** The file for a duration of [d] seconds: the header, then zeros. *)
Definition silentFile (d : Z) : AudioBlob :=
  {| bytes := header (44 + 44100 * d * 2 - 8) (44100 * d * 2)
              ++ List.repeat 0 (Z.to_nat (44100 * d * 2));
     mime := "audio/wav" |}.

Lemma Qeq_bool_false (x y : Q) : ~ (x == y)%Q -> Qeq_bool x y = false.
Proof.
  intros H. destruct (Qeq_bool x y) eqn:E; [|reflexivity].
  elim H. now apply Qeq_bool_iff.
Qed.

Lemma duration_min (text : string) (settings : VoiceSettings) :
  3 <= duration text settings.
Proof. unfold duration. lia. Qed.

(** Once the buffer is there, no write leaves it. *)
Lemma writes_succeed (d : Z) :
  3 <= d ->
  Some (List.repeat 0 (Z.to_nat (44 + 44100 * d * 2)))
  >>= writeString 0 "RIFF"
  >>= setUint32 4 (44 + 44100 * d * 2 - 8)
  >>= writeString 8 "WAVE"
  >>= writeString 12 "fmt "
  >>= setUint32 16 16
  >>= setUint32 20 1
  >>= setUint16 22 1
  >>= setUint32 24 44100
  >>= setUint32 28 (44100 * 1 * 2)
  >>= setUint16 32 (1 * 2)
  >>= setUint16 34 16
  >>= writeString 36 "data"
  >>= setUint32 40 (44100 * d * 2)
  >>= fillSilence (Z.to_nat (44100 * d)) 0
  >>= (fun filled => Some {| bytes := filled; mime := "audio/wav" |})
  = Some (silentFile d).
Proof.
  intros Hd.
  change (Some (List.repeat 0 (Z.to_nat (44 + 44100 * d * 2)))
          >>= writeString 0 "RIFF")
    with (writeString 0 "RIFF" (List.repeat 0 (Z.to_nat (44 + 44100 * d * 2)))).
  change (writeString 0 "RIFF" (List.repeat 0 (Z.to_nat (44 + 44100 * d * 2)))
          >>= setUint32 4 (44 + 44100 * d * 2 - 8)
          >>= writeString 8 "WAVE"
          >>= writeString 12 "fmt "
          >>= setUint32 16 16
          >>= setUint32 20 1
          >>= setUint16 22 1
          >>= setUint32 24 44100
          >>= setUint32 28 (44100 * 1 * 2)
          >>= setUint16 32 (1 * 2)
          >>= setUint16 34 16
          >>= writeString 36 "data"
          >>= setUint32 40 (44100 * d * 2))
    with (writeHeader (44 + 44100 * d * 2) (44100 * d)
            (List.repeat 0 (Z.to_nat (44 + 44100 * d * 2)))).
  rewrite Z2Nat.inj_add by lia.
  change (Z.to_nat 44) with 44%nat. rewrite repeat_app.
  rewrite (local_writeHeader _ _ _ _ _ (writeHeader_zeros _ _)).
  unfold andThen at 2.
  rewrite fillSilence_zeros; [reflexivity | apply header_length | lia].
Qed.

(** What [createAudioBlob] returns, case by case. *)
Lemma createAudioBlob_cases (canAllocate : Z -> bool) (text : string)
    (settings : VoiceSettings) :
  let d := duration text settings in
  createAudioBlob canAllocate text settings =
  if Qeq_bool (rate settings) 0 then None
  else if (fileSize d <=? maxByteLength) && canAllocate (fileSize d)
       then Some (silentFile d)
       else None.
Proof.
  intros d. unfold createAudioBlob, createTextToSpeechInfoFile. fold d.
  destruct (Qeq_bool (rate settings) 0); [reflexivity|].
  cbv zeta. unfold newArrayBuffer.
  replace (fileSize d) with (44 + 44100 * d * 2) by (unfold fileSize; lia).
  destruct ((44 + 44100 * d * 2 <=? maxByteLength)
            && canAllocate (44 + 44100 * d * 2)); [|reflexivity].
  apply writes_succeed. apply duration_min.
Qed.

Lemma createAudioBlob_bytes (canAllocate : Z -> bool) (text : string)
    (settings : VoiceSettings) :
  let d := duration text settings in
  ~ (rate settings == 0)%Q ->
  fileSize d <= maxByteLength -> canAllocate (fileSize d) = true ->
  createAudioBlob canAllocate text settings = Some (silentFile d).
Proof.
  intros d Hr Hmax Hhost. rewrite createAudioBlob_cases. fold d.
  rewrite (Qeq_bool_false _ _ Hr), Hhost.
  apply Z.leb_le in Hmax. now rewrite Hmax.
Qed.

(** A blob that was produced is the silent file, the rate was not 0 and
    the host granted its size. *)
Lemma createAudioBlob_produced (canAllocate : Z -> bool) (text : string)
    (settings : VoiceSettings) (blob : AudioBlob) :
  let d := duration text settings in
  createAudioBlob canAllocate text settings = Some blob ->
  blob = silentFile d /\ ~ (rate settings == 0)%Q /\
  fileSize d <= maxByteLength /\ canAllocate (fileSize d) = true.
Proof.
  intros d. rewrite createAudioBlob_cases. fold d.
  destruct (Qeq_bool (rate settings) 0) eqn:Er; [discriminate|].
  destruct (fileSize d <=? maxByteLength) eqn:Emax; [|discriminate].
  destruct (canAllocate (fileSize d)) eqn:Ehost; [|discriminate].
  cbn [andb]. intros H. injection H as <-.
  split; [reflexivity|]. split; [|split; [now apply Z.leb_le | reflexivity]].
  intros E. apply Qeq_bool_iff in E. congruence.
Qed.

Lemma silentFile_size (d : Z) :
  0 <= d -> Z.of_nat (byteSize (silentFile d)) = fileSize d.
Proof.
  intros Hd. unfold byteSize, silentFile, fileSize. cbn [bytes].
  rewrite length_app, header_length, repeat_length. lia.
Qed.

Lemma u32_bytes (v : Z) :
  v mod 256 + 256 * ((v / 256) mod 256) + 65536 * ((v / 65536) mod 256)
  + 16777216 * ((v / 16777216) mod 256) = v mod 4294967296.
Proof. Z.to_euclidean_division_equations; lia. Qed.

(** The two size fields of the silent file. *)
Lemma silentFile_fields (d : Z) :
  0 <= d ->
  getUint32 4 (bytes (silentFile d)) = (fileSize d - 8) mod 4294967296 /\
  getUint32 40 (bytes (silentFile d)) = (fileSize d - 44) mod 4294967296.
Proof.
  intros Hd. unfold silentFile, fileSize. cbn [bytes]. split.
  - replace (44 + 88200 * d - 8) with (44 + 44100 * d * 2 - 8) by lia.
    rewrite <- u32_bytes. reflexivity.
  - replace (44 + 88200 * d - 44) with (44100 * d * 2) by lia.
    rewrite <- u32_bytes. reflexivity.
Qed.

Lemma silentFile_fields_exact (d : Z) :
  0 <= d <= 48695 ->
  getUint32 4 (bytes (silentFile d)) = fileSize d - 8 /\
  getUint32 40 (bytes (silentFile d)) = fileSize d - 44.
Proof.
  intros Hd. destruct (silentFile_fields d) as [H4 H40]; [lia|].
  rewrite H4, H40. unfold fileSize. split; apply Z.mod_small; lia.
Qed.

Definition always (n : Z) : bool := true.
Definition never (n : Z) : bool := false.

Definition stopped : VoiceSettings :=
  {| voice := None; rate := 0; pitch := 1; volume := 1 |}.





Lemma rate_factor_bound (r : Q) :
  (1 # 2 <= r)%Q -> (60 / (155 * r) <= 24 # 31)%Q.
Proof.
  intros Hr.
  assert (Hpos : (0 < r)%Q) by (eapply Qlt_le_trans; [|exact Hr]; reflexivity).
  apply Qle_shift_div_r.
  - apply (Qmult_lt_0_compat 155 r); [reflexivity | exact Hpos].
  - setoid_replace ((24 # 31) * (155 * r))%Q with (120 * r)%Q by ring.
    apply Qle_trans with (120 * (1 # 2))%Q; [discriminate|].
    apply Qmult_le_l; [reflexivity | exact Hr].
Qed.



End WavFacts.

(** ** Saving a file *)

Module DownloadFacts.
Import JsString JsStringOps JsStringFacts TrimFacts JsNumber TextExport Wav
  WavFacts Download.

Local Open Scope nat_scope.

Example defaultFilename_example :
  defaultFilename "2025-09-13T21:00:02.123Z" = "speech-2025-09-13T21-00-02.wav".
Proof. reflexivity. Qed.

Lemma substring_length (n : nat) (s : string) :
  String.length (substring 0 n s) = Nat.min n (String.length s).
Proof.
  revert n. induction s as [|c s IH]; intros [|n]; simpl; try reflexivity.
  now rewrite IH.
Qed.

Lemma replaceColonsDots_length (s : string) :
  String.length (replaceColonsDots s) = String.length s.
Proof. induction s as [|c s IH]; simpl; [reflexivity | now rewrite IH]. Qed.

Lemma includes_char (c a : ascii) (s : string) :
  includes (String c s) (String a EmptyString)
  = Ascii.eqb a c || includes s (String a EmptyString).
Proof. simpl includes. unfold startsWith. now rewrite andb_true_r. Qed.

(** Neither of the two code units is left. *)
Lemma replaceColonsDots_clean (s : string) :
  includes (replaceColonsDots s) ":" = false /\
  includes (replaceColonsDots s) "." = false.
Proof.
  induction s as [|c s [IH1 IH2]]; [split; reflexivity|].
  simpl replaceColonsDots. rewrite !includes_char, IH1, IH2, !orb_false_r.
  destruct (Ascii.eqb c ":") eqn:E1; [|destruct (Ascii.eqb c ".") eqn:E2];
    cbn [orb].
  - split; reflexivity.
  - split; reflexivity.
  - rewrite (Ascii.eqb_sym ":" c), (Ascii.eqb_sym "." c), E1, E2.
    split; reflexivity.
Qed.

(** X9: when no name (or the empty name) is given, a blob that is not
    empty is saved as "speech-", the first 19 code units of the ISO date
    with every colon and dot replaced by a dash, and ".wav": the part
    between has neither a colon nor a dot.  A given name is used as it is,
    and an empty blob is rejected whatever the name. *)
Theorem downloadAudio_filename (size : nat) (iso : string) (given : string) :
  exists stem,
    defaultFilename iso = ("speech-" ++ stem ++ ".wav")%string /\
    String.length stem = Nat.min 19 (String.length iso) /\
    includes stem ":" = false /\ includes stem "." = false /\
    downloadAudio (S size) None iso None = Saved (defaultFilename iso) /\
    downloadAudio (S size) (Some EmptyString) iso None
      = Saved (defaultFilename iso) /\
    (given <> EmptyString ->
     downloadAudio (S size) (Some given) iso None = Saved given) /\
    downloadAudio 0 (Some given) iso None
      = Rejected (Thrown "Invalid audio file - empty or corrupted").
Proof.
  exists (replaceColonsDots (sliceTo 19 iso)).
  destruct (replaceColonsDots_clean (sliceTo 19 iso)) as [H1 H2].
  repeat split; try assumption.
  - unfold sliceTo. now rewrite replaceColonsDots_length, substring_length.
  - intros Hne. destruct given; [now elim Hne | reflexivity].
Qed.

Lemma downloadAudio_filename_witness :
  "notes.txt" <> EmptyString /\
  downloadAudio 5 (Some "notes.txt") "2025-09-13T21:00:02.123Z" None
    = Saved "notes.txt".
Proof.
  split; [discriminate|].
  destruct (downloadAudio_filename 4 "2025-09-13T21:00:02.123Z" "notes.txt")
    as (stem & _ & _ & _ & _ & _ & _ & H & _).
  apply H. discriminate.
Defined.



End DownloadFacts.

(** ** The two endpoints *)

Module RouteFacts.
Import JsString JsStringOps TrimFacts Endpoint EndpointFacts.

Local Open Scope Q_scope.

(** [x] is [q] brought into the range from [lo] to [hi]: [q] itself when
    it lies inside, the nearer end when it lies outside. *)
Definition clamped (lo hi q x : Q) : Prop :=
  lo <= x /\ x <= hi /\
  (lo <= q -> q <= hi -> x == q) /\
  (q <= lo -> x == lo) /\
  (hi <= q -> x == hi).

(** The answer to a request field: the default 1 for a missing field, and
    the number brought into the range for a field that is a number,
    [null], [true] or [false]. *)
Definition normalised (lo hi : Q) (field : JsValue) (answer : option Q) : Prop :=
  match field with
  | None => answer = Some 1
  | Some j =>
      forall q, toNumber j = Some q ->
      exists x, answer = Some x /\ clamped lo hi q x
  end.

Lemma max_min_clamped (lo hi q : Q) :
  lo <= hi -> clamped lo hi q (Qmax lo (Qmin hi q)).
Proof.
  intros H. unfold clamped. split; [apply Q.le_max_l|].
  split; [apply Q.max_lub; [exact H | apply Q.le_min_l]|].
  split; [|split].
  - intros Hlo Hhi. rewrite (Q.min_r hi q Hhi). now apply Q.max_r.
  - intros Hq. apply Q.max_l.
    eapply Qle_trans; [apply Q.le_min_r | exact Hq].
  - intros Hq. rewrite (Q.min_l hi q Hq). now apply Q.max_r.
Qed.

Lemma clamp_normalised (lo hi : Q) (v : JsValue) :
  lo <= hi -> clamp lo hi 1 None = Some 1 ->
  normalised lo hi v (clamp lo hi 1 v).
Proof.
  intros H Hdefault. destruct v as [j|]; [|exact Hdefault].
  intros q Hq. cbn [clamp]. rewrite Hq. eexists. split; [reflexivity|].
  now apply max_min_clamped.
Qed.

Lemma POST_200_fields (body : option Json) :
  status (POST body) = 200%nat ->
  exists fields,
    body = Some (JObj fields) /\
    POST body =
      validate (lookup "text" fields) (lookup "rate" fields)
        (lookup "pitch" fields) (lookup "volume" fields)
        (lookup "voiceName" fields).
Proof.
  intros H. destruct body as [[]|]; try discriminate H.
  eexists. split; reflexivity.
Qed.

Lemma validate_200 (text rate pitch volume voiceName : JsValue) :
  status (validate text rate pitch volume voiceName) = 200%nat ->
  exists s,
    asString text = Some s /\
    String.length (trim s) <> 0%nat /\ (String.length s <= 5000)%nat /\
    payload (validate text rate pitch volume voiceName) =
      Instructions
        "Server-side TTS not implemented. Please use client-side Web Speech API."
        {| s_text := trim s;
           s_rate := clamp (1 # 10) 10 1 rate;
           s_pitch := clamp 0 2 1 pitch;
           s_volume := clamp 0 1 1 volume;
           s_voiceName := voiceName |}.
Proof.
  unfold validate. destruct (falsy text); [intros E; discriminate E|].
  destruct (asString text) as [s|]; [|intros E; discriminate E].
  destruct (Nat.eqb_spec (String.length (trim s)) 0) as [|Hne];
    [intros E; discriminate E|].
  destruct (Nat.ltb_spec 5000 (String.length s)) as [|Hle];
    [intros E; discriminate E|].
  intros _. exists s. repeat split; try assumption.
Qed.

(** X11: an accepted request is an object whose text is a string; it is
    answered with that text trimmed, which is then not empty, at most 5000
    long and free of whitespace at both ends, with the voice name as it
    came, and with a rate, a pitch and a volume that are numbers: 1 for a
    field the request does not have, and for a field that is a number,
    [null] (0), [true] (1) or [false] (0) that number brought into the
    range 0.1 to 10, 0 to 2, respectively 0 to 1, that is, the number
    itself when it is in the range and the nearer end of the range when it
    is not. *)
Theorem POST_echo (body : option Json) :
  status (POST body) = 200%nat ->
  exists fields text message settings,
    body = Some (JObj fields) /\
    lookup "text" fields = Some (JStr text) /\
    payload (POST body) = Instructions message settings /\
    s_text settings = trim text /\
    (0 < String.length (s_text settings) <= 5000)%nat /\
    (forall c, first (s_text settings) = Some c -> isWhitespace c = false) /\
    (forall c, last (s_text settings) = Some c -> isWhitespace c = false) /\
    s_voiceName settings = lookup "voiceName" fields /\
    normalised (1 # 10) 10 (lookup "rate" fields) (s_rate settings) /\
    normalised 0 2 (lookup "pitch" fields) (s_pitch settings) /\
    normalised 0 1 (lookup "volume" fields) (s_volume settings).
Proof.
  intros H.
  destruct (POST_200_fields body H) as (fields & -> & HP).
  rewrite HP in *. apply validate_200 in H.
  destruct H as (s & Hs & Hne & Hlen & Hpay).
  exists fields, s. eexists. eexists. rewrite Hpay.
  split; [reflexivity|].
  split.
  { destruct (lookup "text" fields) as [[]|]; try discriminate Hs.
    now injection Hs as ->. }
  split; [reflexivity|].
  cbn [s_text s_rate s_pitch s_volume s_voiceName].
  destruct (trim_spec s) as (_ & Hfirst & Hlast & _ & Hshort).
  split; [reflexivity|]. split; [lia|].
  split; [exact Hfirst|]. split; [exact Hlast|].
  split; [reflexivity|].
  repeat split; apply clamp_normalised; solve [discriminate | reflexivity].
Qed.

Definition loudRequest : option Json :=
  Some (JObj [("text", JStr "  Hello world ");
              ("rate", JNum 25); ("pitch", JNull); ("volume", JNum (-3))]).

Definition plainRequest : option Json :=
  Some (JObj [("text", JStr "Hello world"); ("rate", JNum (3 # 2));
              ("pitch", JBool true)]).

Lemma POST_echo_witness :
  status (POST loudRequest) = 200%nat /\
  status (POST plainRequest) = 200%nat /\
  (exists message settings,
     payload (POST loudRequest) = Instructions message settings /\
     s_text settings = "Hello world"%string /\
     (exists x, s_rate settings = Some x /\ x == 10) /\
     (exists x, s_pitch settings = Some x /\ x == 0) /\
     (exists x, s_volume settings = Some x /\ x == 0)) /\
  (exists message settings,
     payload (POST plainRequest) = Instructions message settings /\
     (exists x, s_rate settings = Some x /\ x == 3 # 2) /\
     (exists x, s_pitch settings = Some x /\ x == 1) /\
     s_volume settings = Some 1).
Proof.
  split; [reflexivity|]. split; [reflexivity|]. split.
  - destruct (POST_echo loudRequest eq_refl)
      as (fields & text & message & settings & Hb & _ & Hp & Hs & _ & _ & _
          & _ & Hr & Hpi & Hv).
    injection Hb as <-.
    exists message, settings. split; [exact Hp|].
    split; [injection Hp as <- <-; reflexivity|].
    destruct (Hr 25 eq_refl) as (x & Hx & _ & _ & _ & _ & Hhi).
    destruct (Hpi 0 eq_refl) as (y & Hy & _ & _ & _ & Hlo & _).
    destruct (Hv (-3) eq_refl) as (z & Hz & _ & _ & _ & Hlo' & _).
    split; [exists x; split; [exact Hx | apply Hhi; discriminate]|].
    split; [exists y; split; [exact Hy | apply Hlo; discriminate]|].
    exists z; split; [exact Hz | apply Hlo'; discriminate].
  - destruct (POST_echo plainRequest eq_refl)
      as (fields & text & message & settings & Hb & _ & Hp & _ & _ & _ & _
          & _ & Hr & Hpi & Hv).
    injection Hb as <-.
    exists message, settings. split; [exact Hp|].
    destruct (Hr (3 # 2) eq_refl) as (x & Hx & _ & _ & Hin & _).
    destruct (Hpi 1 eq_refl) as (y & Hy & _ & _ & Hin' & _).
    split; [exists x; split; [exact Hx | apply Hin; discriminate]|].
    split; [exists y; split; [exact Hy | apply Hin'; discriminate]|].
    exact Hv.
Defined.

Lemma validate_agree (text rate pitch volume voiceName : JsValue) :
  let a := AudioRoute.validate text in
  let t := validate text rate pitch volume voiceName in
  (AudioRoute.status a = 400%nat /\ status t = 400%nat /\
   errorOf t = Some (AudioRoute.errorOf a)) \/
  (AudioRoute.status a = 501%nat /\ status t = 200%nat).
Proof.
  unfold AudioRoute.validate, validate.
  destruct (if falsy text then None else asString text) as [s|];
    [|left; repeat split].
  destruct (String.length (trim s) =? 0)%nat; [left; repeat split|].
  destruct (5000 <? String.length s)%nat; [left; repeat split|].
  right. split; reflexivity.
Qed.

(** X12: the two [POST] handlers judge every request alike: one answers 400
    exactly when the other does, with the same message; the requests the
    text-to-speech endpoint accepts with 200 are the ones the
    audio-generation endpoint answers with 501; a body that cannot be read
    gets 500 from both.  The audio-generation endpoint never answers
    200. *)
Theorem routes_agree (body : option Json) :
  let a := AudioRoute.POST body in
  let t := POST body in
  (AudioRoute.status a = 400%nat /\ status t = 400%nat /\
   errorOf t = Some (AudioRoute.errorOf a)) \/
  (AudioRoute.status a = 501%nat /\ status t = 200%nat) \/
  (AudioRoute.status a = 500%nat /\ status t = 500%nat).
Proof.
  destruct body as [b|]; [|right; right; split; reflexivity].
  unfold AudioRoute.POST, POST.
  destruct (getField "text" b) as [text|];
    [|right; right; split; reflexivity].
  destruct (getField "rate" b) as [rate|];
    [|right; right; split; reflexivity].
  destruct (getField "pitch" b) as [pitch|];
    [|right; right; split; reflexivity].
  destruct (getField "volume" b) as [volume|];
    [|right; right; split; reflexivity].
  destruct (getField "voiceName" b) as [voiceName|];
    [|right; right; split; reflexivity].
  destruct (validate_agree text rate pitch volume voiceName) as [H|H];
    [left | right; left]; exact H.
Qed.

End RouteFacts.

(** ** More on the playback manager *)

Module ManagerMore.
Import JsNumber TextExport Manager ManagerFacts.

Local Open Scope nat_scope.
Local Open Scope list_scope.

Lemma orOne_nonzero (x : option Q) : ~ (orOne x == 0)%Q.
Proof.
  destruct x as [q|]; simpl; [|discriminate].
  destruct (Qeq_bool q 0) eqn:E; [discriminate|].
  now apply Qeq_bool_neq.
Qed.

(** Everything the engine was told to speak. *)
Definition spoken (m : TTS) : list Utterance :=
  flat_map (fun c => match c with SpeakCmd u => [u] | _ => [] end)
           (calls (synth m)).

Definition audible (u : Utterance) : Prop :=
  ~ (u_rate u == 0)%Q /\ ~ (u_pitch u == 0)%Q /\ ~ (u_volume u == 0)%Q.

Lemma spoken_snoc (m : TTS) (cs : list Command) (c : Command) :
  flat_map (fun c => match c with SpeakCmd u => [u] | _ => [] end) (cs ++ [c])
  = flat_map (fun c => match c with SpeakCmd u => [u] | _ => [] end) cs
    ++ match c with SpeakCmd u => [u] | _ => [] end.
Proof. rewrite flat_map_app. simpl. now rewrite app_nil_r. Qed.

Lemma step_spoken (a : Action) (m : TTS) :
  spoken (step a m) = spoken m \/
  exists options id, a = Speak options /\
    spoken (step a m) = spoken m ++ [createUtterance id options].
Proof.
  unfold spoken.
  destruct a as [options| | | |e]; simpl.
  - right. exists options. unfold speak. destruct (isPlaying m); simpl.
    + exists (nextId m). split; [reflexivity|].
      rewrite !(spoken_snoc m). simpl. now rewrite app_nil_r.
    + exists (nextId m). split; [reflexivity|]. now rewrite (spoken_snoc m).
  - left. unfold pause. destruct (isPlaying m && negb (isPaused m)); simpl;
      [|reflexivity]. rewrite (spoken_snoc m). simpl. now rewrite app_nil_r.
  - left. unfold resume. destruct (isPaused m); simpl; [|reflexivity].
    rewrite (spoken_snoc m). simpl. now rewrite app_nil_r.
  - left. rewrite (spoken_snoc m). simpl. now rewrite app_nil_r.
  - left. now destruct e.
Qed.

(** X13: no utterance the manager hands to the engine has a rate, a pitch
    or a volume of 0: a requested 0, like a missing value, is replaced by 1
    (so a volume of 0, which the slider offers, is spoken at full
    volume). *)
Theorem spoken_utterances_audible (acts : list Action) (u : Utterance) :
  In u (spoken (run acts init)) -> audible u.
Proof.
  revert u. apply (reachable_ind (fun m => forall u, In u (spoken m) -> audible u)).
  - intros u [].
  - intros a m IH u Hu.
    destruct (step_spoken a m) as [E|(options & id & _ & E)];
      rewrite E in Hu; [now apply IH|].
    apply in_app_or in Hu as [Hu|[<-|[]]]; [now apply IH|].
    repeat split; apply orOne_nonzero.
Qed.

Definition mute : TTSOptions :=
  {| text := "Hello"; o_voice := None; o_rate := Some (3 # 2);
     o_pitch := None; o_volume := Some 0%Q |}.

Lemma spoken_utterances_audible_witness :
  In (createUtterance 0 mute) (spoken (run [Speak mute] init)) /\
  audible (createUtterance 0 mute) /\
  u_volume (createUtterance 0 mute) = 1%Q /\
  u_rate (createUtterance 0 mute) = (3 # 2)%Q.
Proof.
  split; [left; reflexivity|].
  split; [|split; reflexivity].
  apply (spoken_utterances_audible [Speak mute]). left. reflexivity.
Defined.

(** A run in which the engine reports only what it may: every event is
    about the utterance at the head of the queue at that moment. *)
Fixpoint consistent (acts : list Action) (m : TTS) : bool :=
  match acts with
  | [] => true
  | a :: rest =>
      match a with
      | Engine e => deliverable e m
      | _ => true
      end && consistent rest (step a m)
  end.

Definition ids (m : TTS) : list nat := map u_id (queue (synth m)).

Definition settled (m : TTS) : list nat := resolved m ++ rejected m.

(** Queued utterances are distinct and numbered below [nextId]; settled
    promises are distinct, numbered below [nextId], and belong to no queued
    utterance. *)
Definition tidy (m : TTS) : Prop :=
  NoDup (ids m) /\
  (forall id, In id (ids m) -> id < nextId m) /\
  NoDup (settled m) /\
  (forall id, In id (settled m) -> id < nextId m /\ ~ In id (ids m)).

Lemma ids_drop (id : nat) (m : TTS) :
  map u_id (queue (synth_drop id (synth m)))
  = filter (fun i => negb (i =? id)) (ids m).
Proof.
  unfold ids, synth_drop; simpl.
  induction (queue (synth m)) as [|u q IH]; simpl; [reflexivity|].
  destruct (u_id u =? id); simpl; [exact IH | now rewrite IH].
Qed.

Lemma NoDup_filter_keep (f : nat -> bool) (l : list nat) :
  NoDup l -> NoDup (filter f l).
Proof.
  induction 1 as [|x l Hx Hl IH]; simpl; [constructor|].
  destruct (f x); [|exact IH].
  constructor; [|exact IH]. intros H. apply filter_In in H. tauto.
Qed.

Lemma deliverable_head (e : Event) (m : TTS) :
  deliverable e m = true -> In (eventId e) (ids m).
Proof.
  unfold deliverable, headId, ids.
  destruct (queue (synth m)) as [|u q]; [discriminate|].
  intros H. apply Nat.eqb_eq in H. left. exact H.
Qed.

Lemma tidy_settle (m m' : TTS) (id : nat) :
  tidy m -> In id (ids m) ->
  ids m' = filter (fun i => negb (i =? id)) (ids m) ->
  nextId m' = nextId m ->
  Permutation (settled m') (id :: settled m) ->
  tidy m'.
Proof.
  intros (Hq & Hlt & Hs & Hout) Hid Hids Hnext Hperm.
  unfold tidy. rewrite Hids, Hnext. repeat split.
  - now apply NoDup_filter_keep.
  - intros i Hi. apply filter_In in Hi. now apply Hlt.
  - apply (Permutation_NoDup (Permutation_sym Hperm)).
    constructor; [|exact Hs]. intros H. now apply (Hout id H).
  - apply (Permutation_in _ Hperm) in H.
    destruct H as [<-|H]; [now apply Hlt | now apply Hout].
  - intros Hi. apply filter_In in Hi as [Hi Hne].
    apply (Permutation_in _ Hperm) in H.
    destruct H as [<-|H].
    + rewrite Nat.eqb_refl in Hne. discriminate Hne.
    + now apply (Hout id0 H).
Qed.

Lemma tidy_step (a : Action) (m : TTS) :
  tidy m ->
  match a with Engine e => deliverable e m | _ => true end = true ->
  tidy (step a m).
Proof.
  intros Ht Hok. pose proof Ht as (Hq & Hlt & Hs & Hout).
  destruct a as [options| | | |e]; simpl.
  - unfold speak, tidy, ids, settled.
    destruct (isPlaying m); simpl.
    + repeat split; try assumption.
      * repeat constructor. intros [].
      * intros id [<-|[]]. lia.
      * apply Hout in H. lia.
      * intros [<-|[]]. apply Hout in H. lia.
    + rewrite map_app. simpl. repeat split; try assumption.
      * apply NoDup_app; repeat split; try assumption.
        -- repeat constructor. intros [].
        -- intros id Hid [<-|[]]. apply Hlt in Hid. lia.
      * intros id Hid. apply in_app_or in Hid as [Hid|[<-|[]]]; [|lia].
        apply Hlt in Hid. lia.
      * apply Hout in H. lia.
      * intros Hid. apply in_app_or in Hid as [Hid|[<-|[]]].
        -- now apply (Hout id H).
        -- apply Hout in H. lia.
  - unfold pause. destruct (isPlaying m && negb (isPaused m)); exact Ht.
  - unfold resume. destruct (isPaused m); exact Ht.
  - unfold tidy, ids, settled; simpl. repeat split; try assumption.
    + constructor.
    + intros id [].
    + now apply Hout.
    + intros [].
  - pose proof (deliverable_head e m Hok) as Hin.
    destruct e as [id|id|id]; simpl in Hin.
    + exact Ht.
    + apply (tidy_settle m _ id Ht Hin); [apply ids_drop | reflexivity|].
      apply Permutation_refl.
    + apply (tidy_settle m _ id Ht Hin); [apply ids_drop | reflexivity|].
      unfold settled; simpl. apply Permutation_sym.
      apply Permutation_middle.
Qed.

Lemma tidy_run (acts : list Action) (m : TTS) :
  tidy m -> consistent acts m = true -> tidy (run acts m).
Proof.
  revert m. induction acts as [|a acts IH]; intros m Ht Hc; [exact Ht|].
  simpl in Hc. apply andb_true_iff in Hc as [Ha Hc].
  apply (IH (step a m)); [now apply tidy_step | exact Hc].
Qed.

(** X14: as long as the engine reports only on the utterance it is
    speaking, no promise of [speak] is settled twice: the utterances whose
    promise was resolved or rejected are pairwise distinct, each was created
    by an earlier [speak], and none of them is still queued. *)
Theorem promises_settle_once (acts : list Action) :
  consistent acts init = true ->
  let m := run acts init in
  NoDup (resolved m ++ rejected m) /\
  forall id, In id (resolved m ++ rejected m) ->
    id < nextId m /\ ~ In id (map u_id (queue (synth m))).
Proof.
  intros Hc m.
  assert (Ht : tidy init).
  { unfold tidy, ids, settled; simpl.
    split; [constructor|]. split; [intros id []|].
    split; [constructor|]. intros id []. }
  destruct (tidy_run acts init Ht Hc) as (_ & _ & Hs & Hout).
  split; [exact Hs | exact Hout].
Qed.

Lemma promises_settle_once_witness :
  let acts := [Speak hello; Engine (Start 0); Speak world;
               Engine (Start 1); Engine (End_ 1)] in
  consistent acts init = true /\
  resolved (run acts init) = [1] /\
  NoDup (resolved (run acts init) ++ rejected (run acts init)).
Proof.
  split; [reflexivity|]. split; [reflexivity|].
  apply (promises_settle_once
           [Speak hello; Engine (Start 0); Speak world;
            Engine (Start 1); Engine (End_ 1)] eq_refl).
Defined.

End ManagerMore.

(** ** The page *)

Module AppFacts.
Import JsString JsStringOps TrimFacts TextExport Manager ManagerFacts
  ManagerMore App.

Local Open Scope nat_scope.
Local Open Scope list_scope.

(** What an utterance handed to the engine by the page looks like. *)
Definition presentable (u : Utterance) : Prop :=
  u_text u <> EmptyString /\ trim (u_text u) = u_text u /\ audible u.

Definition page_ok (a : App) : Prop :=
  exists m, ttsManager a = Some m /\ forall u, In u (spoken m) -> presentable u.

Lemma manager_step_ok (act : Action) (m : TTS) :
  (forall u, In u (spoken m) -> presentable u) ->
  (forall options, act = Speak options ->
     Manager.text options <> EmptyString /\
     trim (Manager.text options) = Manager.text options) ->
  forall u, In u (spoken (Manager.step act m)) -> presentable u.
Proof.
  intros Hm Hact u Hu.
  destruct (step_spoken act m) as [E|(options & id & Ha & E)];
    rewrite E in Hu; [now apply Hm|].
  apply in_app_or in Hu as [Hu|[<-|[]]]; [now apply Hm|].
  destruct (Hact options Ha) as [Hne Htrim].
  repeat split; try assumption; apply orOne_nonzero.
Qed.

Lemma handlePlay_ok (a : App) : page_ok a -> page_ok (handlePlay a).
Proof.
  intros (m & Hm & Hok). unfold handlePlay. rewrite Hm.
  destruct (Nat.eqb_spec (String.length (trim (text a))) 0) as [|Hne].
  - exists m. now split.
  - eexists. split; [reflexivity|].
    apply (manager_step_ok (Speak _) m Hok).
    intros options E. injection E as <-. simpl. split.
    + intros E. rewrite E in Hne. now apply Hne.
    + now destruct (trim_spec (text a)) as (_ & _ & _ & Hidem & _).
Qed.

Lemma manager_only_ok (a : App) (act : Action) :
  (forall options, act <> Speak options) ->
  page_ok a ->
  page_ok (withManager (option_map (Manager.step act) (ttsManager a)) a).
Proof.
  intros Hact (m & Hm & Hok). rewrite Hm. eexists. split; [reflexivity|].
  apply manager_step_ok; [exact Hok|]. intros options E. now elim (Hact options).
Qed.

Lemma handlePause_ok (a : App) : page_ok a -> page_ok (handlePause a).
Proof.
  intros H. unfold handlePause. destruct H as (m & Hm & Hok). rewrite Hm.
  eexists. split; [reflexivity|].
  destruct (isPaused a).
  - apply (manager_step_ok Resume m Hok). intros options E. discriminate E.
  - apply (manager_step_ok Pause m Hok). intros options E. discriminate E.
Qed.

Lemma retext_ok (t : string) (a : App) : page_ok a -> page_ok (withText t a).
Proof. intros H. exact H. Qed.

Section CaseMapping.

Variables toUpperCase toLowerCase : string -> string.

Lemma step_ok (e : Event) (a : App) :
  page_ok a -> page_ok (step toUpperCase toLowerCase e a).
Proof.
  intros H. destruct e; simpl.
  - unfold handleTextChange. now destruct (_ <=? _).
  - now destruct (nth_error SAMPLE_TEXTS n).
  - destruct (_ =? _); [exact H|].
    apply (manager_only_ok (withText EmptyString a) Stop);
      [intros o E; discriminate E | exact H].
  - now destruct (_ =? _).
  - now destruct (_ =? _).
  - now destruct (_ =? _).
  - destruct (isTextValid (text a)); [|exact H]. unfold handlePlayPause.
    destruct (isPlaying a && negb (isPaused a)); [now apply handlePause_ok|].
    destruct (isPaused a); [now apply handlePause_ok | now apply handlePlay_ok].
  - destruct (negb (isPlaying a) && negb (isPaused a)); [exact H|].
    apply (manager_only_ok a Stop); [intros o E; discriminate E | exact H].
  - destruct H as (m & Hm & Hok). unfold updatePlaybackState. rewrite Hm.
    exists m. split; [reflexivity | exact Hok].
  - apply (manager_only_ok a (Engine e)); [intros o E; discriminate E | exact H].
  - exact H.
Qed.

(** X15: whatever is typed, picked, cut, changed in case, clicked or
    reported by the engine, the page hands the engine only texts that are
    not empty and have no whitespace at either end (the text is trimmed when
    the play button is pressed, whatever it was set to), with a rate, a
    pitch and a volume other than 0. *)
Theorem page_speaks_trimmed_text (evs : list Event) :
  exists m,
    ttsManager (run toUpperCase toLowerCase evs start) = Some m /\
    forall u, In u (spoken m) ->
      u_text u <> EmptyString /\ trim (u_text u) = u_text u /\
      (forall c, first (u_text u) = Some c -> isWhitespace c = false) /\
      (forall c, last (u_text u) = Some c -> isWhitespace c = false) /\
      audible u.
Proof.
  assert (H : page_ok (run toUpperCase toLowerCase evs start)).
  { unfold run.
    assert (H0 : page_ok start) by (exists Manager.init; split; [reflexivity | intros u []]).
    revert H0. generalize start.
    induction evs as [|e evs' IH]; intros a Ha; [exact Ha|].
    simpl. apply IH. now apply step_ok. }
  destruct H as (m & Hm & Hok). exists m. split; [exact Hm|].
  intros u Hu. destruct (Hok u Hu) as (Hne & Htrim & Haud).
  destruct (trim_spec (u_text u)) as (_ & Hfirst & Hlast & _).
  rewrite Htrim in Hfirst, Hlast. repeat split; try assumption; apply Haud.
Qed.

End CaseMapping.

(** X16: with the copies of the flags up to date, the play button pauses a
    playing manager and, pressed again, resumes it: the engine is told to
    pause and then to resume, the queue and the text are untouched, and the
    label of the button goes from "Pause" to "Resume" and back. *)
Theorem pause_resume_round_trip (a : App) (m : TTS) :
  ttsManager a = Some m ->
  Manager.isPlaying m = true -> Manager.isPaused m = false ->
  isPlaying a = true -> isPaused a = false ->
  let a1 := updatePlaybackState (handlePlayPause a) in
  let a2 := updatePlaybackState (handlePlayPause a1) in
  getPlayButtonText a = "Pause"%string /\
  getPlayButtonText a1 = "Resume"%string /\
  getPlayButtonText a2 = "Pause"%string /\
  ttsManager a1 = Some (pause m) /\
  Paused (pause m) /\ paused (synth (pause m)) = true /\
  ttsManager a2 = Some (resume (pause m)) /\
  Playing (resume (pause m)) /\
  paused (synth (resume (pause m))) = false /\
  queue (synth (resume (pause m))) = queue (synth m) /\
  calls (synth (resume (pause m))) = calls (synth m) ++ [PauseCmd; ResumeCmd] /\
  text a2 = text a.
Proof.
  intros Hm Hp Hq Hap Haq a1 a2. subst a2 a1.
  unfold getPlayButtonText, handlePlayPause, handlePause,
    updatePlaybackState, Paused, Playing, pause, resume.
  rewrite Hap, Haq, Hm. simpl. rewrite Hp, Hq. simpl.
  rewrite <- app_assoc. repeat split.
Qed.

Definition playingPage : App :=
  run (fun s => s) (fun s => s)
    [Type_ "Hello world"; PlayPause; EngineEvent (Start 0); Poll] start.

Lemma pause_resume_round_trip_witness :
  exists m,
    ttsManager playingPage = Some m /\
    Manager.isPlaying m = true /\ Manager.isPaused m = false /\
    isPlaying playingPage = true /\ isPaused playingPage = false /\
    getPlayButtonText
      (updatePlaybackState (handlePlayPause playingPage)) = "Resume"%string.
Proof.
  eexists. split; [reflexivity|].
  split; [reflexivity|]. split; [reflexivity|].
  split; [reflexivity|]. split; [reflexivity|].
  refine (proj1 (proj2 (pause_resume_round_trip playingPage _ eq_refl
                          eq_refl eq_refl eq_refl eq_refl))).
Defined.

End AppFacts.

(** ** More on the recorded export *)

Module RecordingMore.
Import Estimator TextExport Recording RecordingFacts.

Local Open Scope Q_scope.

(** *** A refused capture *)

Definition idle (o : Outcome) (s : Session) : Prop :=
  spoken s = false /\ recorder s = Inactive /\ recordingStarted s = false /\
  timers s = [] /\ outcome s = o.

Lemma step_idle (o : Outcome) (e : Event) (s : Session) :
  idle o s -> idle o (step e s).
Proof.
  intros (Hsp & Hr & Hst & Ht & Ho).
  destruct e as [t| | | |]; simpl.
  - unfold elapse. rewrite Ht. simpl. repeat split; assumption.
  - rewrite Hsp. repeat split; assumption.
  - rewrite Hsp. repeat split; assumption.
  - rewrite Hr. repeat split; assumption.
  - rewrite Hr. repeat split; assumption.
Qed.

Lemma run_idle (o : Outcome) (evs : list Event) (s : Session) :
  idle o s -> idle o (run evs s).
Proof.
  revert s. induction evs as [|e evs IH]; intros s H; [exact H|].
  simpl. apply IH. now apply step_idle.
Qed.

(** X17: when the capture is refused, or has no audio track, the export is
    rejected at once with that reason and stays so: whatever happens later,
    nothing is recorded, no timer is set and the text is never spoken. *)
Theorem refused_capture_is_inert (text : string) (settings : VoiceSettings)
    (reason : string) (evs : list Event) :
  let denied :=
    run evs (createAudioBlobWithRecording text settings (Denied reason)) in
  let silent :=
    run evs (createAudioBlobWithRecording text settings (Granted 0)) in
  (outcome denied = Rejected reason /\
   recorder denied = Inactive /\ spoken denied = false /\ timers denied = []) /\
  (outcome silent = Rejected "No audio track available from screen capture" /\
   recorder silent = Inactive /\ spoken silent = false /\ timers silent = []).
Proof.
  split.
  - destruct (run_idle (Rejected reason) evs
                (createAudioBlobWithRecording text settings (Denied reason)))
      as (Hsp & Hr & _ & Ht & Ho); [repeat split|].
    repeat split; assumption.
  - destruct (run_idle (Rejected "No audio track available from screen capture")
                evs (createAudioBlobWithRecording text settings (Granted 0)))
      as (Hsp & Hr & _ & Ht & Ho); [repeat split|].
    repeat split; assumption.
Qed.

(** *** The start of the speech *)

Lemma runCallback_spoken (cb : Callback) (s : Session) :
  spoken (runCallback cb s) = match cb with StartSpeech => true | _ => spoken s end.
Proof.
  destruct cb; simpl; try reflexivity;
    unfold stopIfRecording; destruct (recordingStarted s), (recorder s);
    reflexivity.
Qed.

Lemma runAll_spoken_kept (ready : list Timer) (s : Session) :
  spoken s = true -> spoken (runAll ready s) = true.
Proof.
  revert s. induction ready as [|t ready IH]; intros s H; [exact H|].
  simpl. apply IH. rewrite runCallback_spoken. now destruct (callback t).
Qed.

Lemma runAll_spoken_started (ready : list Timer) (s : Session) (tm : Timer) :
  In tm ready -> callback tm = StartSpeech -> spoken (runAll ready s) = true.
Proof.
  revert s. induction ready as [|t ready IH]; intros s Hin Hcb; [destruct Hin|].
  simpl. destruct Hin as [->|Hin].
  - apply runAll_spoken_kept. rewrite runCallback_spoken. now rewrite Hcb.
  - now apply IH.
Qed.

Lemma runAll_spoken_none (ready : list Timer) (s : Session) :
  (forall tm, In tm ready -> callback tm <> StartSpeech) ->
  spoken (runAll ready s) = spoken s.
Proof.
  revert s. induction ready as [|t ready IH]; intros s H; [reflexivity|].
  simpl. rewrite IH by (intros tm Htm; apply H; now right).
  rewrite runCallback_spoken.
  specialize (H t (or_introl eq_refl)). now destruct (callback t).
Qed.

(** Before the half second: nothing spoken, and the one timer that will
    start the speech is pending.  After it: spoken. *)
Definition speech_state (s : Session) : Prop :=
  (clock s < 500 /\ spoken s = false /\
   (forall tm, In tm (timers s) -> callback tm = StartSpeech -> due tm == 500) /\
   exists tm, In tm (timers s) /\ callback tm = StartSpeech)
  \/ (500 <= clock s /\ spoken s = true).

Lemma elapse_as_runAll (t : Q) (s : Session) :
  elapse t s =
  runAll (sortByDue (filter (isDue (Qmax (clock s) t)) (timers s)))
    {| clock := Qmax (clock s) t; recorder := recorder s;
       recordingStarted := recordingStarted s;
       timers := filter (fun t0 => negb (isDue (Qmax (clock s) t) t0)) (timers s);
       spoken := spoken s; tracksLive := tracksLive s;
       outcome := outcome s |}.
Proof. reflexivity. Qed.

Lemma step_speech_state (e : Event) (s : Session) :
  speech_state s -> speech_state (step e s).
Proof.
  intros H. destruct e as [t| | | |]; simpl.
  - rewrite elapse_as_runAll. set (now := Qmax (clock s) t).
    match goal with |- speech_state (runAll ?r ?s0) =>
      set (ready := r); set (s' := s0) end.
    destruct (runAll_frame ready s') as [Hc Ht].
    destruct H as [(Hlt & Hsp & Hall & tm & Htm & Hcb)|[Hge Hsp]].
    + destruct (Qlt_le_dec now 500) as [Hnow|Hnow].
      * left. rewrite Hc, Ht. simpl. split; [exact Hnow|]. split.
        { rewrite runAll_spoken_none; [exact Hsp|].
          intros tm' Hin Hcb'. apply sortByDue_In, filter_In in Hin as [Hin Hdue].
          unfold isDue in Hdue. apply Qle_bool_iff in Hdue.
          rewrite (Hall tm' Hin Hcb') in Hdue.
          exact (Qlt_not_le _ _ Hnow Hdue). }
        split.
        { intros tm' Hin. apply filter_In in Hin as [Hin _]. now apply Hall. }
        exists tm. split; [|exact Hcb]. apply filter_In. split; [exact Htm|].
        unfold isDue. destruct (Qle_bool (due tm) now) eqn:E; [|reflexivity].
        apply Qle_bool_iff in E. rewrite (Hall tm Htm Hcb) in E.
        exfalso. exact (Qlt_not_le _ _ Hnow E).
      * right. rewrite Hc. simpl. split; [exact Hnow|].
        apply (runAll_spoken_started ready s' tm); [|exact Hcb].
        apply sortByDue_In, filter_In. split; [exact Htm|].
        unfold isDue. apply Qle_bool_iff. now rewrite (Hall tm Htm Hcb).
    + right. rewrite Hc. simpl. split.
      * eapply Qle_trans; [exact Hge | apply Q.le_max_l].
      * now apply runAll_spoken_kept.
  - destruct H as [(Hlt & Hsp & Hrest)|[Hge Hsp]]; rewrite Hsp.
    + left. repeat split; try assumption; apply Hrest.
    + right. split; assumption.
  - destruct (stopIfRecording_frame s) as [Hc Ht].
    assert (Hs : spoken (stopIfRecording s) = spoken s)
      by (apply (runCallback_spoken SafetyStop s)).
    destruct H as [(Hlt & Hsp & Hrest)|[Hge Hsp]]; rewrite Hsp.
    + left. repeat split; try assumption; apply Hrest.
    + right. rewrite Hc, Hs. split; assumption.
  - destruct (recorder s); [exact H|]. exact H.
  - destruct (recorder s); [exact H|].
    destruct (stopIfRecording_frame s) as [Hc Ht].
    exact H.
Qed.

Lemma run_speech_state (evs : list Event) (s : Session) :
  speech_state s -> speech_state (run evs s).
Proof.
  revert s. induction evs as [|e evs IH]; intros s H; [exact H|].
  simpl. apply IH. now apply step_speech_state.
Qed.

(** X18: once a recording has begun, the text is spoken from the moment
    the clock shows 500 milliseconds and not before, whatever else happens:
    the timer that starts the speech is never cleared, so the speech starts
    even when the recorder has failed or the stream has ended by then. *)
Theorem speech_starts_at_half_second (text : string)
    (settings : VoiceSettings) (n : nat) (evs : list Event) :
  let s := run evs (createAudioBlobWithRecording text settings (Granted (S n))) in
  (500 <= clock s -> spoken s = true) /\
  (clock s < 500 -> spoken s = false).
Proof.
  intros s.
  assert (H : speech_state s).
  { apply run_speech_state. left. simpl. repeat split.
    - intros tm [<-|[<-|[]]] Hcb; [reflexivity | discriminate Hcb].
    - eexists. split; [left; reflexivity | reflexivity]. }
  destruct H as [(Hlt & Hsp & _)|[Hge Hsp]]; split; intros Hc;
    try assumption; exfalso.
  - exact (Qlt_not_le _ _ Hlt Hc).
  - exact (Qlt_not_le _ _ Hc Hge).
Qed.

(** *** Settling *)

Lemma settle_keeps (o : Outcome) (s : Session) :
  outcome s <> Pending -> outcome (settle o s) = outcome s.
Proof. intros H. unfold settle; simpl. now destruct (outcome s). Qed.

(** The recorder records, the promise is pending and the tracks are live;
    or the recorder has stopped, the promise is settled and the tracks are
    stopped. *)
Definition in_step (s : Session) : Prop :=
  recordingStarted s = true /\
  ((recorder s = Recording /\ outcome s = Pending /\ tracksLive s = true) \/
   (recorder s = Inactive /\ outcome s <> Pending /\ tracksLive s = false)).

Lemma stopIfRecording_in_step (s : Session) :
  in_step s ->
  in_step (stopIfRecording s) /\
  (outcome s <> Pending -> stopIfRecording s = s).
Proof.
  intros (Hs & [(Hr & Ho & Ht)|(Hr & Ho & Ht)]);
    unfold stopIfRecording; rewrite Hs, Hr.
  - split; [|intros H; now elim H]. split; [exact Hs|]. right.
    unfold recorderStop, onstop, settle; simpl. rewrite Ho.
    repeat split. discriminate.
  - split; [|reflexivity]. split; [exact Hs|]. right. now repeat split.
Qed.

Lemma runCallback_in_step (cb : Callback) (s : Session) :
  in_step s ->
  in_step (runCallback cb s) /\
  (outcome s <> Pending -> outcome (runCallback cb s) = outcome s).
Proof.
  intros H. destruct cb; simpl.
  - split; [exact H | reflexivity].
  - destruct (stopIfRecording_in_step s H) as [H1 H2].
    split; [exact H1 | intros Ho; now rewrite H2].
  - destruct (stopIfRecording_in_step s H) as [H1 H2].
    split; [exact H1 | intros Ho; now rewrite H2].
Qed.

Lemma runAll_in_step (ready : list Timer) (s : Session) :
  in_step s ->
  in_step (runAll ready s) /\
  (outcome s <> Pending -> outcome (runAll ready s) = outcome s).
Proof.
  revert s. induction ready as [|t ready IH]; intros s H; [now split|].
  simpl. destruct (runCallback_in_step (callback t) s H) as [H1 H2].
  destruct (IH _ H1) as [H3 H4]. split; [exact H3|].
  intros Ho. rewrite H4; [now apply H2 | now rewrite H2].
Qed.

Lemma step_in_step (e : Event) (s : Session) :
  in_step s ->
  in_step (step e s) /\
  (outcome s <> Pending -> outcome (step e s) = outcome s).
Proof.
  intros H. destruct e as [t| | | |]; simpl.
  - rewrite elapse_as_runAll.
    match goal with |- in_step (runAll ?r ?s0) /\ _ =>
      destruct (runAll_in_step r s0 H) as [H1 H2] end.
    split; [exact H1 | exact H2].
  - destruct (spoken s); split; try exact H; reflexivity.
  - destruct (spoken s); [|now split].
    destruct (stopIfRecording_in_step s H) as [H1 H2].
    split; [exact H1 | intros Ho; now rewrite H2].
  - destruct H as (Hs & [(Hr & Ho & Ht)|(Hr & Ho & Ht)]); rewrite Hr.
    + split; [|intros E; now elim E]. split; [exact Hs|]. right.
      unfold settle; simpl. rewrite Ho. repeat split. discriminate.
    + split; [|reflexivity]. split; [exact Hs|]. right. now repeat split.
  - destruct H as (Hs & [(Hr & Ho & Ht)|(Hr & Ho & Ht)]); rewrite Hr.
    + split; [|intros E; now elim E]. split; [exact Hs|]. right.
      unfold recorderStop, onstop, settle; simpl. rewrite Ho.
      repeat split. discriminate.
    + split; [|reflexivity]. split; [exact Hs|]. right. now repeat split.
Qed.

Lemma run_in_step (evs : list Event) (s : Session) :
  in_step s -> in_step (run evs s).
Proof.
  revert s. induction evs as [|e evs IH]; intros s H; [exact H|].
  simpl. apply IH. now apply step_in_step.
Qed.

(** X19: during a recording the promise is pending exactly while the
    recorder records, and the tracks of the captured stream are live
    exactly then: every way the recorder stops (a timer, an error of the
    speech, an error of the recorder, the end of the stream) stops the
    tracks and settles the promise.  A settled promise is never settled
    again: no later event changes its outcome. *)
Theorem recording_settles_once (text : string) (settings : VoiceSettings)
    (n : nat) (evs : list Event) (e : Event) :
  let s := run evs (createAudioBlobWithRecording text settings (Granted (S n))) in
  ((recorder s = Recording /\ outcome s = Pending /\ tracksLive s = true) \/
   (recorder s = Inactive /\ outcome s <> Pending /\ tracksLive s = false)) /\
  (outcome s <> Pending -> outcome (step e s) = outcome s).
Proof.
  intros s.
  assert (H : in_step s).
  { apply run_in_step. split; [reflexivity|]. left. repeat split. }
  split; [apply H | apply (step_in_step e s H)].
Qed.

(** *** The end of the speech *)

Definition isStop (cb : Callback) : bool :=
  match cb with
  | StartSpeech => false
  | DelayedStop | SafetyStop => true
  end.

(** A timer that stops the recorder is pending for the time [bound], which
    has not come. *)
Definition stop_pending (bound : Q) (s : Session) : Prop :=
  clock s < bound /\
  exists tm, In tm (timers s) /\ isStop (callback tm) = true /\ due tm == bound.

Lemma runAll_stop (ready : list Timer) (s : Session) (tm : Timer) :
  recordingStarted s = true -> In tm ready -> isStop (callback tm) = true ->
  recorder (runAll ready s) = Inactive.
Proof.
  revert s. induction ready as [|t ready IH]; intros s Hs Hin Hcb; simpl.
  - destruct Hin.
  - destruct Hin as [->|Hin].
    + apply runAll_stays.
      destruct (callback tm); [discriminate Hcb | |];
        simpl; now apply stopIfRecording_inactive.
    + apply IH; try assumption.
      destruct (callback t); simpl; try exact Hs;
        unfold stopIfRecording; rewrite Hs; now destruct (recorder s).
Qed.

Lemma step_stop_pending (bound : Q) (e : Event) (s : Session) :
  recordingStarted s = true ->
  recorder s = Inactive \/ stop_pending bound s ->
  recorder (step e s) = Inactive \/ stop_pending bound (step e s).
Proof.
  intros Hs Hsafe. destruct e as [t| | | |]; simpl.
  - rewrite elapse_as_runAll. set (now := Qmax (clock s) t).
    match goal with |- recorder (runAll ?r ?s0) = _ \/ _ =>
      set (ready := r); set (s' := s0) end.
    destruct Hsafe as [Hin|[Hlt (tm & Htm & Hcb & Hdue)]].
    + left. now apply runAll_stays.
    + destruct (Qlt_le_dec now bound) as [Hnow|Hnow].
      * right. destruct (runAll_frame ready s') as [Hc Ht].
        unfold stop_pending. rewrite Hc, Ht. simpl. split; [exact Hnow|].
        exists tm. repeat split; try assumption.
        apply filter_In. split; [exact Htm|].
        unfold isDue. destruct (Qle_bool (due tm) now) eqn:E; [|reflexivity].
        apply Qle_bool_iff in E. rewrite Hdue in E.
        exfalso. exact (Qlt_not_le _ _ Hnow E).
      * left. apply (runAll_stop ready s' tm); [exact Hs | | exact Hcb].
        apply sortByDue_In, filter_In. split; [exact Htm|].
        unfold isDue. apply Qle_bool_iff. now rewrite Hdue.
  - destruct (spoken s); [|exact Hsafe].
    destruct Hsafe as [Hin|[Hlt (tm & Htm & Hcb & Hdue)]]; [now left|].
    right. split; [exact Hlt|]. exists tm. repeat split; try assumption.
    simpl. apply in_or_app. now left.
  - destruct (spoken s); [|exact Hsafe].
    destruct Hsafe as [Hin|[Hlt Htm]].
    + left. now apply stopIfRecording_stays.
    + right. destruct (stopIfRecording_frame s) as [Hc Ht].
      unfold stop_pending. now rewrite Hc, Ht.
  - destruct (recorder s) eqn:Hr; now left.
  - destruct (recorder s) eqn:Hr; now left.
Qed.

Lemma run_started (evs : list Event) (s : Session) :
  started s -> started (run evs s).
Proof.
  revert s. induction evs as [|e evs IH]; intros s H; [exact H|].
  simpl. apply IH. now apply step_started.
Qed.

Lemma run_stop_pending (bound : Q) (evs : list Event) (s : Session) :
  started s ->
  recorder s = Inactive \/ stop_pending bound s ->
  recorder (run evs s) = Inactive \/ stop_pending bound (run evs s).
Proof.
  revert s. induction evs as [|e evs IH]; intros s Hst H; [exact H|].
  simpl. apply IH; [now apply step_started|].
  apply step_stop_pending; [apply Hst | exact H].
Qed.

(** X20: when the engine reports the end of the speech, the recording is
    stopped, and its promise settled, by the time the clock is one second
    further, whatever happens in that second. *)
Theorem recording_stops_after_speech (text : string)
    (settings : VoiceSettings) (n : nat) (before after : list Event) :
  let s1 :=
    run before (createAudioBlobWithRecording text settings (Granted (S n))) in
  spoken s1 = true ->
  let s2 := run after (step UtteranceEnd s1) in
  clock s1 + 1000 <= clock s2 ->
  recorder s2 = Inactive /\ outcome s2 <> Pending.
Proof.
  intros s1 Hsp s2 Hclock.
  assert (Hst1 : started s1).
  { apply run_started. split; [reflexivity | intros H; discriminate H]. }
  assert (Hst : started (step UtteranceEnd s1)) by now apply step_started.
  assert (Hpend : stop_pending (clock s1 + 1000) (step UtteranceEnd s1)).
  { simpl. rewrite Hsp. split.
    - simpl. rewrite <- (Qplus_0_r (clock s1)) at 1.
      apply Qplus_lt_r. reflexivity.
    - eexists. split; [simpl; apply in_or_app; right; left; reflexivity|].
      split; [reflexivity|]. simpl. reflexivity. }
  destruct (run_stop_pending _ after _ Hst (or_intror Hpend)) as [Hin|[Hlt _]].
  - split; [exact Hin|]. now apply (run_started after _ Hst).
  - exfalso. exact (Qlt_not_le _ _ Hlt Hclock).
Qed.

Lemma recording_stops_after_speech_witness :
  let s1 := run [Elapse 500]
              (createAudioBlobWithRecording "Hello world" initialSettings
                 (Granted 1)) in
  let s2 := run [Elapse 2000] (step UtteranceEnd s1) in
  spoken s1 = true /\ clock s1 + 1000 <= clock s2 /\
  recorder s2 = Inactive /\ outcome s2 = Resolved.
Proof.
  split; [reflexivity|]. split; [vm_compute; discriminate|].
  split; [|reflexivity].
  apply (recording_stops_after_speech "Hello world" initialSettings 0
           [Elapse 500] [Elapse 2000] eq_refl).
  vm_compute. discriminate.
Defined.

End RecordingMore.

(** ** Settings panel *)

Module VoicePanelFacts.
Import JsString JsStringFacts TextExport VoicePanel.

Local Open Scope list_scope.

Lemma find_first {A} (f : A -> bool) (l : list A) (x : A) :
  find f l = Some x ->
  exists before after,
    l = before ++ x :: after /\ f x = true /\
    forall y, In y before -> f y = false.
Proof.
  induction l as [|y l IH]; simpl; [discriminate|].
  destruct (f y) eqn:E.
  - intros H. injection H as <-. exists [], l. repeat split; [exact E|].
    intros z [].
  - intros H. destruct (IH H) as (before & after & -> & Hx & Hb).
    exists (y :: before), after. repeat split; [exact Hx|].
    intros z [<-|Hz]; [exact E | now apply Hb].
Qed.

Lemma find_none {A} (f : A -> bool) (l : list A) :
  find f l = None -> forall y, In y l -> f y = false.
Proof.
  induction l as [|x l IH]; simpl; [intros _ y []|].
  destruct (f x) eqn:E; [discriminate|].
  intros H y [<-|Hy]; [exact E | now apply IH].
Qed.

(** X21: loading the voices never replaces a voice that is selected and
    never changes rate, pitch or volume.  With no voice selected and voices
    available, it selects one of them: the first that is flagged as the
    default when there is one, otherwise the first of the list. *)
Theorem loadVoices_selects (availableVoices : list Voice)
    (settings : VoiceSettings) :
  let loaded := loadVoices availableVoices settings in
  rate loaded = rate settings /\ pitch loaded = pitch settings /\
  volume loaded = volume settings /\
  (forall v, voice settings = Some v -> loaded = settings) /\
  (availableVoices = [] -> loaded = settings) /\
  (voice settings = None -> availableVoices <> [] ->
   exists v, voice loaded = Some v /\ In v availableVoices /\
     ((default v = true /\
       exists before after, availableVoices = before ++ v :: after /\
         forall w, In w before -> default w = false) \/
      ((forall w, In w availableVoices -> default w = false) /\
       exists rest, availableVoices = v :: rest))).
Proof.
  intros loaded. subst loaded. unfold loadVoices.
  destruct (voice settings) as [v0|] eqn:Hv.
  - do 3 (split; [reflexivity|]).
    split; [reflexivity|]. split; [reflexivity|]. intros H. discriminate H.
  - destruct availableVoices as [|v1 rest].
    + do 3 (split; [reflexivity|]).
      split; [reflexivity|]. split; [reflexivity|]. intros _ H. now elim H.
    + do 3 (split; [reflexivity|]).
      split; [intros v H; discriminate H|].
      split; [intros H; discriminate H|].
      intros _ _. destruct (find default (v1 :: rest)) as [v|] eqn:E.
      *
        exists v. split; [reflexivity|].
        destruct (find_first _ _ _ E) as (before & after & Hl & Hd & Hb).
        split; [rewrite Hl; apply in_or_app; right; now left|].
        left. split; [exact Hd|]. now exists before, after.
      * exists v1. split; [reflexivity|]. split; [now left|].
        right. split; [now apply find_none | now exists rest].
Qed.

Lemma find_app_first {A} (f : A -> bool) (before after : list A) (x : A) :
  (forall y, In y before -> f y = false) -> f x = true ->
  find f (before ++ x :: after) = Some x.
Proof.
  intros Hb Hx. induction before as [|y before IH]; simpl.
  - now rewrite Hx.
  - rewrite (Hb y (or_introl eq_refl)). apply IH.
    intros z Hz. apply Hb. now right.
Qed.

(** X22: choosing a voice by its name selects the first voice of the list
    that has the name (a later voice of the same name is never chosen), or
    none when no voice has it, and leaves rate, pitch and volume alone;
    when the name is not empty, the text export of the new settings names
    that first voice and its language (or "Default" for an empty
    language), whatever the conversion of numbers. *)
Theorem handleVoiceChange_exports (ToString : Q -> string)
    (voices : list Voice) (voiceName : string) (settings : VoiceSettings)
    (now text : string) :
  let chosen := handleVoiceChange voices voiceName settings in
  rate chosen = rate settings /\ pitch chosen = pitch settings /\
  volume chosen = volume settings /\
  ((forall v, In v voices -> name v <> voiceName) -> voice chosen = None) /\
  (forall before v after,
     voices = before ++ v :: after -> name v = voiceName ->
     (forall w, In w before -> name w <> voiceName) ->
     voice chosen = Some v /\
     (voiceName <> EmptyString ->
      includes (content (createTextFile ToString now text chosen))
        ("- Voice: " ++ voiceName) = true /\
      includes (content (createTextFile ToString now text chosen))
        ("- Language: " ++ orDefault (Some (lang v))) = true)).
Proof.
  intros chosen. subst chosen. unfold handleVoiceChange.
  cbn [rate pitch volume voice].
  do 3 (split; [reflexivity|]). split.
  - intros Hnone. destruct (find _ voices) as [v|] eqn:E; [|reflexivity].
    destruct (find_first _ _ _ E) as (before & after & Hl & Hn & _).
    apply String.eqb_eq in Hn. exfalso. apply (Hnone v); [|exact Hn].
    rewrite Hl. apply in_or_app. right. now left.
  - intros before v after -> Hname Hbefore.
    assert (E : find (fun v0 => (name v0 =? voiceName)%string)
                  (before ++ v :: after) = Some v).
    { apply find_app_first.
      - intros w Hw. apply String.eqb_neq. now apply Hbefore.
      - now apply String.eqb_eq. }
    rewrite E. split; [reflexivity|]. intros Hne.
    unfold createTextFile, voiceLine, languageLine.
    cbn [content voice option_map]. rewrite Hname.
    assert (Hshown : orDefault (Some voiceName) = voiceName)
      by (destruct voiceName; [now elim Hne | reflexivity]).
    rewrite Hshown.
    split; repeat first [ apply includes_here | apply includes_later ].
Qed.

Definition alex : Voice :=
  {| name := "Alex"; lang := "en-US"; localService := true; default := false |}.

Definition alva : Voice :=
  {| name := "Alva"; lang := "sv-SE"; localService := true; default := true |}.

Definition alvaGerman : Voice :=
  {| name := "Alva"; lang := "de-DE"; localService := false; default := false |}.

(** Of two voices called "Alva" the first is chosen, and its language
    exported. *)
Lemma handleVoiceChange_exports_witness :
  let chosen :=
    handleVoiceChange [alex; alva; alvaGerman] "Alva" initialSettings in
  "Alva"%string <> EmptyString /\
  voice chosen = Some alva /\
  includes
    (content (createTextFile JsNumber.numberToString "now" "Hello" chosen))
    "- Language: sv-SE" = true.
Proof.
  split; [discriminate|].
  destruct (handleVoiceChange_exports JsNumber.numberToString
              [alex; alva; alvaGerman] "Alva" initialSettings "now" "Hello")
    as (_ & _ & _ & _ & H).
  destruct (H [alex] alva [alvaGerman] eq_refl eq_refl) as [Hv Hshown].
  { intros w [<-|[]]. discriminate. }
  split; [exact Hv|]. apply Hshown. discriminate.
Defined.

End VoicePanelFacts.
